(** * Verification of [scripts/render_whitepaper.py]

    The script pre-renders the Mermaid blocks of a Markdown document and
    then calls a document converter on the rewritten text.  This file embeds
    the script's three stages (extraction with [re.finditer], the rendering
    loop, the substitution with [re.sub] followed by the converter call) and
    proves the properties of the specification about them. *)

From Stdlib Require Import Ascii String ZArith Decimal DecimalString DecimalNat Lia.
From stdpp Require Import base option list gmap.
From Equations Require Import Equations.
From Equations.Prop Require Import Logic.

Set Default Goal Selector "!".

(** ** Text

    A Python [str] is a sequence of characters; it is modelled as a list of
    characters so that slices are [take]/[drop] and concatenation is [++]. *)

Abbreviation text := (list ascii).

Definition T (s : string) : text := list_ascii_of_string s.

Definition NL : ascii := "010"%char.
Definition BACKTICK : ascii := "`"%char.

(** [s[a:b]] for [a <= b]. *)
Definition slice (s : text) (a b : nat) : text := take (b - a) (drop a s).

(** [str(n)] for a non-negative integer. *)
Definition str_of_nat (n : nat) : text :=
  T (NilEmpty.string_of_uint (Nat.to_uint n)).

(** ** The pattern [r'```mermaid\n(.*?)```'] with [re.DOTALL] *)

Definition OPEN : text := T "```mermaid" ++ [NL].
Definition CLOSE : text := T "```".

(** Literal match at the head of [s]: the remainder after [p], if [s]
    starts with [p]. *)
Fixpoint strip_prefix (p s : text) : option text :=
  match p, s with
  | [], _ => Some s
  | c :: p', d :: s' => if Ascii.eqb c d then strip_prefix p' s' else None
  | _ :: _, [] => None
  end.

(** The lazy group [(.*?)] followed by the literal [close]: the engine tries
    the empty payload first and extends it one character at a time (every
    character is accepted under DOTALL) until [close] matches. *)
Fixpoint lazy_until (close s : text) : option (text * text) :=
  match strip_prefix close s with
  | Some rest => Some ([], rest)
  | None =>
      match s with
      | [] => None
      | c :: s' =>
          match lazy_until close s' with
          | Some (payload, rest) => Some (c :: payload, rest)
          | None => None
          end
      end
  end.

(** The whole pattern anchored at the head of [s]: payload (group 1) and the
    text after the match. *)
Definition match_here (s : text) : option (text * text) :=
  match strip_prefix OPEN s with
  | Some body => lazy_until CLOSE body
  | None => None
  end.

(** Leftmost match in [s]: the text skipped before it, the payload and the
    text after it. *)
Fixpoint search (s : text) : option (text * text * text) :=
  match match_here s with
  | Some (payload, rest) => Some ([], payload, rest)
  | None =>
      match s with
      | [] => None
      | c :: s' =>
          match search s' with
          | Some (pre, payload, rest) => Some (c :: pre, payload, rest)
          | None => None
          end
      end
  end.

(** A match object: [start()], [end()], [group(0)] and [group(1)]. *)
Record Match := mkMatch {
  m_start : nat;
  m_end : nat;
  group0 : text;
  group1 : text
}.

(** The match found by a search started at offset [pos] that skipped [pre]. *)
Definition match_at (pos : nat) (pre payload : text) : Match :=
  let start := pos + length pre in
  {| m_start := start;
     m_end := start + length OPEN + length payload + length CLOSE;
     group0 := OPEN ++ payload ++ CLOSE;
     group1 := payload |}.

Lemma strip_prefix_Some p s r : strip_prefix p s = Some r <-> s = p ++ r.
Proof.
  revert s; induction p as [|c p IH]; intros [|d s]; simpl.
  - split; congruence.
  - split; congruence.
  - split; [congruence | discriminate].
  - destruct (Ascii.eqb_spec c d) as [->|Hne].
    + rewrite IH. split; congruence.
    + split; [discriminate | congruence].
Qed.

Lemma strip_prefix_None p s : strip_prefix p s = None <-> forall r, s <> p ++ r.
Proof.
  split.
  - intros H r Hr. apply strip_prefix_Some in Hr. congruence.
  - intros H. destruct (strip_prefix p s) as [r|] eqn:E; [|done].
    apply strip_prefix_Some in E. by destruct (H r).
Qed.

Lemma lazy_until_Some close s payload rest :
  lazy_until close s = Some (payload, rest) -> s = payload ++ close ++ rest.
Proof.
  revert payload rest; induction s as [|c s IH]; intros payload rest; simpl.
  - destruct (strip_prefix close []) eqn:E; [|done].
    intros [= <- <-]. by apply strip_prefix_Some in E.
  - destruct (strip_prefix close (c :: s)) eqn:E.
    + intros [= <- <-]. by apply strip_prefix_Some in E.
    + destruct (lazy_until close s) as [[p r]|]; [|done].
      intros [= <- <-]. simpl. f_equal. by apply IH.
Qed.

Lemma match_here_Some s payload rest :
  match_here s = Some (payload, rest) -> s = OPEN ++ payload ++ CLOSE ++ rest.
Proof.
  unfold match_here. destruct (strip_prefix OPEN s) as [body|] eqn:E; [|done].
  apply strip_prefix_Some in E. intros H%lazy_until_Some. by subst.
Qed.

Lemma search_Some s pre payload rest :
  search s = Some (pre, payload, rest) ->
  s = pre ++ OPEN ++ payload ++ CLOSE ++ rest.
Proof.
  revert pre; induction s as [|c s IH]; intros pre; simpl.
  - by intros [=].
  - destruct (match_here (c :: s)) as [[p r]|] eqn:E.
    + intros [= <- <- <-]. by apply match_here_Some in E.
    + destruct (search s) as [[[pre' p'] r']|]; [|done].
      intros [= <- <- <-]. simpl. f_equal. by apply IH.
Qed.

Lemma search_shrinks s pre payload rest :
  search s = Some (pre, payload, rest) -> length rest < length s.
Proof.
  intros H%search_Some. subst s. rewrite !length_app.
  assert (length OPEN = 11) by done. lia.
Qed.

(** [re.finditer]: after a match the scan resumes at its end. *)
Equations? finditer_from (pos : nat) (s : text) : list Match
  by wf (length s) lt :=
  finditer_from pos s with inspect (search s) := {
    | exist _ (Some (pre, payload, rest)) Hs =>
        match_at pos pre payload
          :: finditer_from (m_end (match_at pos pre payload)) rest
    | exist _ None _ => [] }.
Proof. all: by eapply search_shrinks. Qed.

Definition finditer (content : text) : list Match := finditer_from 0 content.

Example finditer_two :
  finditer (T "a" ++ OPEN ++ T "X" ++ CLOSE ++ OPEN ++ T "Y" ++ CLOSE ++ T "z")
  = [ {| m_start := 1; m_end := 16; group0 := OPEN ++ T "X" ++ CLOSE; group1 := T "X" |};
      {| m_start := 16; m_end := 31; group0 := OPEN ++ T "Y" ++ CLOSE; group1 := T "Y" |} ].
Proof. reflexivity. Qed.

Lemma finditer_from_match pos s pre payload rest :
  search s = Some (pre, payload, rest) ->
  finditer_from pos s
  = match_at pos pre payload
      :: finditer_from (m_end (match_at pos pre payload)) rest.
Proof.
  intros E. funelim (finditer_from pos s).
  - assert (Some (pre0, payload0, rest0) = Some (pre, payload, rest))
      as [= -> -> ->] by congruence.
    done.
  - congruence.
Qed.

Lemma finditer_from_nomatch pos s : search s = None -> finditer_from pos s = [].
Proof.
  intros E. funelim (finditer_from pos s); [congruence | done].
Qed.

(** ** Assembly: [re.sub] with a callable replacement

    [re.sub] scans like [re.finditer]; it copies the text between matches and
    calls [repl] on each match, in order.  The callable of the script reads
    and writes the global [counter], so [repl] threads a state. *)

Section Sub.
Context {St : Type}.
Variable repl : Match -> St -> text * St.

Equations? re_sub_from (pos : nat) (s : text) (st : St) : text * St
  by wf (length s) lt :=
  re_sub_from pos s st with inspect (search s) := {
    | exist _ (Some (pre, payload, rest)) Hs =>
        let m := match_at pos pre payload in
        let r := repl m st in
        let o := re_sub_from (m_end m) rest (snd r) in
        (pre ++ fst r ++ fst o, snd o)
    | exist _ None _ => (s, st) }.
Proof. all: by eapply search_shrinks. Qed.

Definition re_sub (content : text) (st : St) : text * St :=
  re_sub_from 0 content st.

Lemma re_sub_from_match pos s st pre payload rest :
  search s = Some (pre, payload, rest) ->
  re_sub_from pos s st
  = let m := match_at pos pre payload in
    let r := repl m st in
    let o := re_sub_from (m_end m) rest (snd r) in
    (pre ++ fst r ++ fst o, snd o).
Proof.
  intros E. funelim (re_sub_from pos s st).
  - assert (Some (pre0, payload0, rest0) = Some (pre, payload, rest))
      as [= -> -> ->] by congruence.
    done.
  - congruence.
Qed.

Lemma re_sub_from_nomatch pos s st :
  search s = None -> re_sub_from pos s st = (s, st).
Proof.
  intros E. funelim (re_sub_from pos s st); [congruence | done].
Qed.
End Sub.

(** [f"![Diagram {idx}]({path})"] *)
Definition image_ref (idx : nat) (path : text) : text :=
  T "![Diagram " ++ str_of_nat idx ++ T "](" ++ path ++ T ")".

(** The callable [replace_block]; the state is the global [counter]. *)
Definition replace_block (rendered : gmap nat text) (m : Match) (counter : nat)
  : text * nat :=
  let idx := counter in
  let counter := counter + 1 in
  match rendered !! idx with
  | Some png => (image_ref idx png, counter)
  | None => (group0 m, counter)
  end.

(** [output = re.sub(pattern, replace_block, content, flags=re.DOTALL)] with
    [counter = 0] before the call. *)
Definition assemble (rendered : gmap nat text) (content : text) : text :=
  fst (re_sub (replace_block rendered) content 0).

Example assemble_mid :
  assemble {[ 0 := T "p0"; 2 := T "p2" ]}
    (OPEN ++ T "A" ++ CLOSE ++ T "-" ++ OPEN ++ T "B" ++ CLOSE ++ T "-"
       ++ OPEN ++ T "C" ++ CLOSE)
  = T "![Diagram 0](p0)-" ++ OPEN ++ T "B" ++ CLOSE ++ T "-![Diagram 2](p2)".
Proof. vm_compute. reflexivity. Qed.

(** ** The script and its environment

    Everything outside the script is an oracle: what the files hold, whether
    a write or a process invocation raises, what a process returns, whether
    the artifact exists afterwards, whether the size of the final document
    can be read.  An artifact found to exist can be measured and the scratch
    locations of the assembly stage can be written; the scratch write of a
    block, the two tools and the size query on the final document may
    fail. *)

Inductive ProcResult :=
  | RunRaises (e : text)
      (** [subprocess.run] raised: [TimeoutExpired], [OSError], ... *)
  | Completed (returncode : Z) (stdout stderr : text).

Inductive StatResult :=
  | StatRaises (e : text)
      (** [os.path.getsize] raised: the file is missing or unreadable *)
  | Size (bytes : nat).

Record Env := {
  whitepaper : text;                   (** [open(WHITEPAPER).read()] *)
  cfg_text : text;                     (** [open(PUPPETEER_CFG).read()] *)
  scratch_write : nat -> option text;  (** writing [d{i}.mmd]: the exception raised, if any *)
  mmdc : nat -> ProcResult;            (** the renderer run for block [i] *)
  png_exists : nat -> bool;            (** [os.path.exists(png)] after that run *)
  png_size : nat -> nat;               (** [os.path.getsize(png)] *)
  pandoc : ProcResult;                 (** the converter run *)
  pdf_getsize : StatResult             (** [os.path.getsize(OUTPUT_PDF)] *)
}.

Inductive Event :=
  | MakeDirs (path : text)
  | WriteFile (path data : text)
  | Printed (line : text)
  | Invoke (argv : list text).

Inductive Outcome (A : Type) :=
  | Done (a : A)
  | Raise (e : text)       (** an exception is propagating *)
  | Exit (code : Z).       (** [sys.exit(code)] *)
Arguments Done {A} a.
Arguments Raise {A} e.
Arguments Exit {A} code.

(** A computation: the events it performed and how it ended. *)
Definition Script (A : Type) : Type := list Event * Outcome A.

#[export] Instance Script_ret : MRet Script := fun A a => ([], Done a).
#[export] Instance Script_bind : MBind Script := fun A B f m =>
  match m with
  | (ev, Done a) => let '(ev', r) := f a in (ev ++ ev', r)
  | (ev, Raise e) => (ev, Raise e)
  | (ev, Exit c) => (ev, Exit c)
  end.

Definition emit (e : Event) : Script unit := ([e], Done tt).
Definition print (line : text) : Script unit := emit (Printed line).
Definition sys_exit (code : Z) : Script unit := ([], Exit code).

(** [try: body / except Exception as e: handler e]; [SystemExit] is not an
    [Exception]. *)
Definition try_except {A} (body : Script A) (handler : text -> Script A)
  : Script A :=
  match body with
  | (ev, Raise e) => let '(ev', r) := handler e in (ev ++ ev', r)
  | other => other
  end.

(** [with open(path, "w") as f: f.write(data)] for the scratch file of
    block [i]. *)
Definition write_scratch (env : Env) (i : nat) (path data : text)
  : Script unit :=
  match scratch_write env i with
  | None => emit (WriteFile path data)
  | Some e => ([], Raise e)
  end.

(** [subprocess.run(argv, capture_output=True, text=True, ...)] *)
Definition subprocess_run (argv : list text) (result : ProcResult)
  : Script (Z * text * text) :=
  ([Invoke argv],
   match result with
   | RunRaises e => Raise e
   | Completed rc out err => Done (rc, out, err)
   end).

(** [os.path.getsize(path)], answered by the environment. *)
Definition os_path_getsize (result : StatResult) : Script nat :=
  ([], match result with
       | StatRaises e => Raise e
       | Size bytes => Done bytes
       end).

(** The exit status of the interpreter. *)
Definition exit_status {A} (r : Outcome A) : Z :=
  match r with
  | Done _ => 0
  | Raise _ => 1
  | Exit c => c
  end.

Definition DQ : ascii := "034"%char.
Definition quoted (s : text) : text := DQ :: s ++ [DQ].

Definition WHITEPAPER : text := T "/home/leo/Equorum-Protocol/WHITEPAPER.md".
Definition OUTPUT_PDF : text := T "/home/leo/Equorum-Protocol/WHITEPAPER_V2.pdf".
Definition DIAGRAM_DIR : text := T "/tmp/mermaid_diagrams".
Definition PUPPETEER_CFG : text := T "/tmp/puppeteer.json".
Definition WORK_MD : text := T "/tmp/whitepaper_rendered.md".

(** [os.path.join(dir, name)] for a directory without a trailing slash and a
    relative name. *)
Definition path_join (dir name : text) : text := dir ++ T "/" ++ name.

Definition mmd_path (i : nat) : text :=
  path_join DIAGRAM_DIR (T "d" ++ str_of_nat i ++ T ".mmd").
Definition png_path (i : nat) : text :=
  path_join DIAGRAM_DIR (T "d" ++ str_of_nat i ++ T ".png").

(** What [json.dump] writes for the renderer configuration. *)
Definition puppeteer_json : text :=
  T "{" ++ quoted (T "executablePath") ++ T ": "
    ++ quoted (T "/usr/bin/chromium-browser") ++ T ", "
    ++ quoted (T "args") ++ T ": [" ++ quoted (T "--no-sandbox") ++ T ", "
    ++ quoted (T "--disable-setuid-sandbox") ++ T "]}".

Definition mmdc_argv (mmd png : text) : list text :=
  [ T "/tmp/mmdc_local/node_modules/.bin/mmdc"; T "-i"; mmd; T "-o"; png;
    T "-p"; PUPPETEER_CFG; T "-w"; T "800"; T "-b"; T "white" ].

Definition pandoc_argv : list text :=
  [ T "pandoc"; WORK_MD; T "-o"; OUTPUT_PDF; T "--pdf-engine=xelatex";
    T "-V"; T "geometry:margin=1in"; T "-V"; T "mainfont=DejaVu Sans";
    T "-V"; T "monofont=DejaVu Sans Mono"; T "-V"; T "fontsize=11pt";
    T "-V"; T "colorlinks=true"; T "-V"; T "linkcolor=blue";
    T "-V"; T "urlcolor=blue"; T "--highlight-style=tango"; T "--toc" ].

(** ** Rendering stage: one iteration of [for i, match in enumerate(blocks)] *)
Definition render_block (env : Env) (i : nat) (m : Match)
    (rendered : gmap nat text) : Script (gmap nat text) :=
  let mmd := mmd_path i in
  let png := png_path i in
  write_scratch env i mmd (group1 m);;
  try_except
    ('(_, out, err) ← subprocess_run (mmdc_argv mmd png) (mmdc env i);
     if png_exists env i then
       let rendered := <[i := png]> rendered in
       print (T "  Diagram " ++ str_of_nat i ++ T ": OK ("
                ++ str_of_nat (png_size env i) ++ T " bytes)");;
       mret rendered
     else
       print (T "  Diagram " ++ str_of_nat i ++ T ": FAILED");;
       print (T "    stdout: " ++ take 200 out);;
       print (T "    stderr: " ++ take 200 err);;
       mret rendered)
    (fun e =>
       print (T "  Diagram " ++ str_of_nat i ++ T ": ERROR - " ++ e);;
       mret rendered).

Fixpoint render_loop (env : Env) (i : nat) (blocks : list Match)
    (rendered : gmap nat text) : Script (gmap nat text) :=
  match blocks with
  | [] => mret rendered
  | m :: blocks' =>
      rendered ← render_block env i m rendered;
      render_loop env (S i) blocks' rendered
  end.

(** ** The whole script *)
Definition main (env : Env) : Script unit :=
  emit (MakeDirs DIAGRAM_DIR);;
  emit (WriteFile PUPPETEER_CFG puppeteer_json);;
  print (T "Puppeteer config: " ++ cfg_text env);;
  let content := whitepaper env in
  let blocks := finditer content in
  print (T "Found " ++ str_of_nat (length blocks) ++ T " mermaid blocks");;
  rendered ← render_loop env 0 blocks ∅;
  let output := assemble rendered content in
  emit (WriteFile WORK_MD output);;
  print (NL :: T "Replaced " ++ str_of_nat (size rendered) ++ T "/"
           ++ str_of_nat (length blocks) ++ T " diagrams");;
  print (T "Generating PDF...");;
  '(returncode, _, err) ← subprocess_run pandoc_argv (pandoc env);
  if (returncode =? 0)%Z then
    size ← os_path_getsize (pdf_getsize env);
    print (T "PDF generated: " ++ OUTPUT_PDF ++ T " ("
             ++ str_of_nat size ++ T " bytes)")
  else
    print (T "PDF generation failed:" ++ NL :: take 500 err);;
    sys_exit 1.

(** ** Vocabulary of the specification *)

(** [p] occurs in [s] as a contiguous substring. *)
Definition occurs (p s : text) : Prop := exists a b, s = a ++ p ++ b.

(** The pattern matches at offset [k] of [s]. *)
Definition matches_at (k : nat) (s : text) : Prop :=
  exists body, drop k s = OPEN ++ body /\ occurs CLOSE body.

(** The text outside the blocks [ms] of [content], from offset [pos] on: what
    lies before each block and what follows the last one. *)
Fixpoint gaps_from (pos : nat) (content : text) (ms : list Match)
  : list text :=
  match ms with
  | [] => [drop pos content]
  | m :: ms' => slice content pos (m_start m) :: gaps_from (m_end m) content ms'
  end.

Definition gaps (content : text) : list text :=
  gaps_from 0 content (finditer content).

(** [g0 ++ r0 ++ g1 ++ r1 ++ ... ++ gn] *)
Fixpoint weave (gs rs : list text) : text :=
  match gs with
  | [] => []
  | g :: gs' =>
      g ++ match rs with
           | [] => []
           | r :: rs' => r ++ weave gs' rs'
           end
  end.

(** The callable applied to the matches [ms] in order, threading its state. *)
Fixpoint run_repl {St : Type} (repl : Match -> St -> text * St)
    (ms : list Match) (st : St) : list text * St :=
  match ms with
  | [] => ([], st)
  | m :: ms' =>
      let r := repl m st in
      let o := run_repl repl ms' (snd r) in
      (fst r :: fst o, snd o)
  end.

(** What the block of index [k] becomes. *)
Definition replacement (rendered : gmap nat text) (k : nat) (m : Match)
  : text :=
  match rendered !! k with
  | Some png => image_ref k png
  | None => group0 m
  end.

(** A callable instrumented with the log of its calls: the state it was
    called in and the match it was given. *)
Definition traced {St : Type} (repl : Match -> St -> text * St)
    (m : Match) (sl : St * list (St * Match))
  : text * (St * list (St * Match)) :=
  let r := repl m (fst sl) in
  (fst r, (snd r, snd sl ++ [(fst sl, m)])).

(** The renderer invocations among the events, in order. *)
Definition invocations (ev : list Event) : list (list text) :=
  omap (fun e => match e with Invoke argv => Some argv | _ => None end) ev.

(** The files written among the events, in order. *)
Definition files_written (ev : list Event) : list (text * text) :=
  omap (fun e => match e with WriteFile p d => Some (p, d) | _ => None end) ev.

(** The line printed on success of the conversion starts with this. *)
Definition SUCCESS_PREFIX : text := T "PDF generated: ".

Definition is_success_message (e : Event) : bool :=
  match e with
  | Printed line =>
      match strip_prefix SUCCESS_PREFIX line with
      | Some _ => true
      | None => false
      end
  | _ => false
  end.

Definition claims_success (ev : list Event) : bool :=
  existsb is_success_message ev.

(** Block [i] is recorded: the renderer run returned (whatever its exit
    status) and the artifact exists afterwards. *)
Definition render_ok (env : Env) (i : nat) : bool :=
  match mmdc env i with
  | Completed _ _ _ => png_exists env i
  | RunRaises _ => false
  end.

Definition exited_zero (r : ProcResult) : bool :=
  match r with
  | Completed rc _ _ => (rc =? 0)%Z
  | RunRaises _ => false
  end.

(** The mapping [rendered] after the loop, when the loop ends normally. *)
Definition rendered_after (env : Env) : option (gmap nat text) :=
  match snd (render_loop env 0 (finditer (whitepaper env)) ∅) with
  | Done rendered => Some rendered
  | _ => None
  end.

(** The mapping [rendered] as it stands when the loop stops, normally or
    through an exception: the dict is updated in place, so what the earlier
    iterations recorded is still in it when an iteration raises. *)
Fixpoint render_loop_state (env : Env) (i : nat) (blocks : list Match)
    (rendered : gmap nat text) : gmap nat text :=
  match blocks with
  | [] => rendered
  | m :: blocks' =>
      match snd (render_block env i m rendered) with
      | Done rendered' => render_loop_state env (S i) blocks' rendered'
      | _ => rendered
      end
  end.

Definition rendered_at_stop (env : Env) : gmap nat text :=
  render_loop_state env 0 (finditer (whitepaper env)) ∅.

(** The renderer process of block [i] is started during the loop. *)
Definition renderer_invoked (env : Env) (i : nat) : Prop :=
  Invoke (mmdc_argv (mmd_path i) (png_path i))
    ∈ fst (render_loop env 0 (finditer (whitepaper env)) ∅).

(** The number a decimal numeral stands for; the empty text is no
    numeral. *)
Definition decimal_value (t : text) : option nat :=
  match t with
  | [] => None
  | _ => Nat.of_uint <$> NilEmpty.uint_of_string (string_of_list_ascii t)
  end.

(** An image reference of Markdown starts at the head of [t]: an exclamation
    mark and an opening bracket, later a closing bracket with an opening
    parenthesis, later a closing parenthesis. *)
Definition image_ref_here (t : text) : bool :=
  match strip_prefix (T "![") t with
  | Some t1 =>
      match lazy_until (T "](") t1 with
      | Some (_, t2) =>
          match lazy_until (T ")") t2 with
          | Some _ => true
          | None => false
          end
      | None => false
      end
  | None => false
  end.

(** The number of offsets of [t] at which an image reference starts. *)
Fixpoint count_image_refs (t : text) : nat :=
  (if image_ref_here t then 1 else 0)
  + match t with
    | [] => 0
    | _ :: t' => count_image_refs t'
    end.

(** The fence with its language tag, without the newline. *)
Definition FENCE_TAG : text := T "```mermaid".

(** ** Sample documents and runs *)

Definition three_blocks : text :=
  T "a" ++ OPEN ++ T "A" ++ CLOSE ++ T "b" ++ OPEN ++ T "B" ++ CLOSE
    ++ T "c" ++ OPEN ++ T "C" ++ CLOSE ++ T "d".

(** The environment of a run in which every tool works. *)
Definition quiet_env (content : text) : Env :=
  {| whitepaper := content;
     cfg_text := puppeteer_json;
     scratch_write := fun _ => None;
     mmdc := fun _ => Completed 0 [] [];
     png_exists := fun _ => true;
     png_size := fun _ => 1024;
     pandoc := Completed 0 [] [];
     pdf_getsize := Size 4096 |}.

(** A run over [three_blocks] in which the renderer times out on block 1 and
    exits with status 1 on block 2, whose artifact exists all the same. *)
Definition mixed_env : Env :=
  {| whitepaper := three_blocks;
     cfg_text := puppeteer_json;
     scratch_write := fun _ => None;
     mmdc := fun i =>
       match i with
       | 0 => Completed 0 [] []
       | 1 => RunRaises (T "Command timed out after 60 seconds")
       | _ => Completed 1 [] (T "Error: Parse error on line 1")
       end;
     png_exists := fun i => negb (Nat.eqb i 1);
     png_size := fun _ => 2048;
     pandoc := Completed 0 [] [];
     pdf_getsize := Size 4096 |}.

(** A run over [three_blocks] in which the scratch file of block 0 cannot be
    written. *)
Definition full_disk_env : Env :=
  {| whitepaper := three_blocks;
     cfg_text := puppeteer_json;
     scratch_write := fun i =>
       match i with
       | 0 => Some (T "[Errno 28] No space left on device")
       | _ => None
       end;
     mmdc := fun _ => Completed 0 [] [];
     png_exists := fun _ => true;
     png_size := fun _ => 2048;
     pandoc := Completed 0 [] [];
     pdf_getsize := Size 4096 |}.

(** A run over [three_blocks] in which the scratch file of block 1 cannot
    be written. *)
Definition second_write_fails_env : Env :=
  {| whitepaper := three_blocks;
     cfg_text := puppeteer_json;
     scratch_write := fun i =>
       match i with
       | 1 => Some (T "[Errno 13] Permission denied")
       | _ => None
       end;
     mmdc := fun _ => Completed 0 [] [];
     png_exists := fun _ => true;
     png_size := fun _ => 2048;
     pandoc := Completed 0 [] [];
     pdf_getsize := Size 4096 |}.

(** A document with an image of its own before its only block. *)
Definition logo_doc : text :=
  T "![logo](logo.png)" ++ [NL] ++ OPEN ++ T "graph TD" ++ CLOSE.

(** A run over [three_blocks] in which the converter exits with status 0
    and leaves no document behind. *)
Definition missing_pdf_env : Env :=
  {| whitepaper := three_blocks;
     cfg_text := puppeteer_json;
     scratch_write := fun _ => None;
     mmdc := fun _ => Completed 0 [] [];
     png_exists := fun _ => true;
     png_size := fun _ => 2048;
     pandoc := Completed 0 [] [];
     pdf_getsize :=
       StatRaises (T "[Errno 2] No such file or directory: "
                     ++ T "'/home/leo/Equorum-Protocol/WHITEPAPER_V2.pdf'") |}.

(** ** Claims of the specification that the script does not meet, as
    stated *)

(** C2 as the specification states it: a block is recorded exactly when the
    renderer exited with status zero and the artifact exists. *)
Definition recorded_iff_exit_zero_and_artifact (env : Env) : Prop :=
  forall rendered, rendered_after env = Some rendered ->
  forall i, i < length (finditer (whitepaper env)) ->
    is_Some (rendered !! i)
    <-> exited_zero (mmdc env i) = true /\ png_exists env i = true.

(** C4 as the specification states it: when every block has a recorded
    artifact, the assembled text holds exactly as many image references as
    the document has blocks. *)
Definition exactly_one_image_ref_per_block (rendered : gmap nat text)
    (content : text) : Prop :=
  (forall i, i < length (finditer content) -> is_Some (rendered !! i)) ->
  count_image_refs (assemble rendered content) = length (finditer content).

(** C6 as the specification states it: the exit status is 0 whenever the
    converter exits with status 0. *)
Definition exit_zero_when_converter_exits_zero (env : Env) : Prop :=
  forall out err, pandoc env = Completed 0 out err ->
    exit_status (snd (main env)) = 0%Z.

(** C7 as the specification states it: whatever fails while a block is
    processed, the loop ends normally after attempting every block. *)
Definition every_block_failure_caught (env : Env) : Prop :=
  let blocks := finditer (whitepaper env) in
  exists ev rendered,
    render_loop env 0 blocks ∅ = (ev, Done rendered)
    /\ invocations ev
       = (fun i => mmdc_argv (mmd_path i) (png_path i))
           <$> seq 0 (length blocks).

(** C10 as the specification states it: the text of an opening delimiter
    that no closing delimiter follows occurs unchanged in the assembled
    text. *)
Definition unterminated_opening_kept (rendered : gmap nat text)
    (content : text) : Prop :=
  forall a b, content = a ++ OPEN ++ b -> ~ occurs CLOSE b ->
    occurs (OPEN ++ b) (assemble rendered content).

Example main_quiet :
  snd (main (quiet_env (T "intro " ++ OPEN ++ T "graph TD" ++ CLOSE)))
  = Done tt.
Proof. vm_compute. reflexivity. Qed.

(** ** What the matcher finds *)

Lemma lazy_until_None close s : lazy_until close s = None <-> ~ occurs close s.
Proof.
  induction s as [|c s IH]; simpl.
  - destruct (strip_prefix close []) as [r|] eqn:E.
    + apply strip_prefix_Some in E. split; [done|]. intros []. by exists [], r.
    + split; [|done]. intros _ ([|x a] & b & Hab); [|done].
      exact (proj1 (strip_prefix_None _ _) E b Hab).
  - destruct (strip_prefix close (c :: s)) as [r|] eqn:E.
    + apply strip_prefix_Some in E. split; [done|]. intros []. by exists [], r.
    + destruct (lazy_until close s) as [[p r]|] eqn:El.
      * split; [done|]. intros []. apply lazy_until_Some in El.
        exists (c :: p), r. simpl. by f_equal.
      * split; [|done]. intros _ ([|x a] & b & Hab).
        -- exact (proj1 (strip_prefix_None _ _) E b Hab).
        -- injection Hab as -> ->. apply IH; [done|]. by exists a, b.
Qed.

(** Laziness: the closing delimiter taken is the first one. *)
Lemma lazy_until_first close s payload rest :
  lazy_until close s = Some (payload, rest) ->
  forall a b, s = a ++ close ++ b -> length payload <= length a.
Proof.
  revert payload rest; induction s as [|c s IH]; intros payload rest; simpl.
  - destruct (strip_prefix close []) eqn:E; [|done].
    intros [= <- <-] a b _. simpl. lia.
  - destruct (strip_prefix close (c :: s)) eqn:E.
    + intros [= <- <-] a b _. simpl. lia.
    + destruct (lazy_until close s) as [[p r]|] eqn:El; [|done].
      intros [= <- <-] [|x a] b Hab.
      * by destruct (proj1 (strip_prefix_None _ _) E b).
      * injection Hab as -> ->. simpl. apply le_n_S. by eapply IH.
Qed.

Lemma match_here_None s : match_here s = None <-> ~ matches_at 0 s.
Proof.
  unfold match_here, matches_at. rewrite drop_0.
  destruct (strip_prefix OPEN s) as [body|] eqn:E.
  - apply strip_prefix_Some in E. rewrite lazy_until_None. subst s.
    split.
    + intros H (body' & ->%app_inv_head & Hocc). by apply H.
    + intros H Hocc. apply H. by exists body.
  - split; [|done]. intros _ (body & Hb & _).
    exact (proj1 (strip_prefix_None _ _) E body Hb).
Qed.

Lemma matches_at_S k c s : matches_at (S k) (c :: s) <-> matches_at k s.
Proof. done. Qed.

Lemma search_None s : search s = None <-> forall k, ~ matches_at k s.
Proof.
  induction s as [|c s IH]; simpl.
  - split; [|done]. intros _ k (body & H & _). by rewrite drop_nil in H.
  - destruct (match_here (c :: s)) as [[p r]|] eqn:E.
    + split; [done|]. intros H. specialize (H 0).
      apply match_here_None in H. congruence.
    + destruct (search s) as [[[pre p] r]|] eqn:Es.
      * split; [done|]. intros H.
        by pose proof (proj2 IH (fun k => H (S k))).
      * split; [|done]. intros _ [|k].
        -- by apply match_here_None.
        -- rewrite matches_at_S. by apply IH.
Qed.

(** Leftmost: nothing matches at an offset before the match found, and the
    match found is the pattern's match at its offset. *)
Lemma search_leftmost s pre payload rest :
  search s = Some (pre, payload, rest) ->
  (forall k, k < length pre -> ~ matches_at k s)
  /\ match_here (drop (length pre) s) = Some (payload, rest).
Proof.
  revert pre; induction s as [|c s IH]; intros pre; simpl; [done|].
  destruct (match_here (c :: s)) as [[p r]|] eqn:E.
  - intros [= <- <- <-]. split; [simpl; lia | done].
  - destruct (search s) as [[[pre' p'] r']|] eqn:Es; [|done].
    intros [= <- <- <-]. destruct (IH pre' eq_refl) as [Hlt Hm].
    split; [|done]. intros [|k] Hk.
    + by apply match_here_None.
    + rewrite matches_at_S. apply Hlt. simpl in Hk. lia.
Qed.

(** The payload is the shortest span: it holds no closing delimiter that
    ends at or before the one taken. *)
Lemma search_lazy s pre payload rest :
  search s = Some (pre, payload, rest) ->
  forall a b, payload ++ CLOSE ++ rest = a ++ CLOSE ++ b ->
    length payload <= length a.
Proof.
  intros H a b Hab. apply search_leftmost in H as [_ H].
  unfold match_here in H.
  destruct (strip_prefix OPEN _) as [body|] eqn:E; [|done].
  pose proof (lazy_until_Some _ _ _ _ H) as ->.
  by eapply lazy_until_first.
Qed.

(** Completeness of the scan: a match is found exactly when the pattern
    matches somewhere. *)
Lemma search_is_Some s : is_Some (search s) <-> exists k, matches_at k s.
Proof.
  destruct (search s) as [[[pre p] r]|] eqn:E.
  - split; [|by eauto]. intros _. exists (length pre).
    pose proof (search_Some _ _ _ _ E) as Hs.
    exists (p ++ CLOSE ++ r). split.
    + by rewrite Hs, drop_app_length.
    + by exists p, r.
  - split; [by intros [? [=]]|]. intros [k Hk]. by apply search_None in Hk.
Qed.

(** ** Reasoning along the scan *)

(** Induction that follows the scan of [re.finditer] and [re.sub]: either
    nothing matches in the remaining text, or a match is found and the scan
    resumes after it. *)
Lemma scan_ind (P : nat -> text -> Prop) :
  (forall pos s, search s = None -> P pos s) ->
  (forall pos s pre payload rest,
      search s = Some (pre, payload, rest) ->
      P (m_end (match_at pos pre payload)) rest -> P pos s) ->
  forall pos s, P pos s.
Proof.
  intros Hnone Hsome pos s.
  remember (length s) as n eqn:Hn. revert pos s Hn.
  induction n as [n IH] using lt_wf_ind. intros pos s ->.
  destruct (search s) as [[[pre payload] rest]|] eqn:E.
  - eapply Hsome; [done|]. eapply IH; [|done]. by eapply search_shrinks.
  - by apply Hnone.
Qed.

Lemma m_end_match_at pos pre payload :
  m_end (match_at pos pre payload)
  = pos + length (pre ++ OPEN ++ payload ++ CLOSE).
Proof. unfold match_at. cbn [m_end]. rewrite !length_app. lia. Qed.

Lemma m_span_match_at pos pre payload :
  m_end (match_at pos pre payload)
  = m_start (match_at pos pre payload)
    + length (group0 (match_at pos pre payload)).
Proof.
  unfold match_at. cbn [m_end m_start group0]. rewrite !length_app. lia.
Qed.

Lemma slice_app_mid (a b c : text) :
  slice (a ++ b ++ c) (length a) (length a + length b) = b.
Proof.
  unfold slice. rewrite drop_app_length.
  replace (length a + length b - length a) with (length b) by lia.
  by rewrite take_app_length.
Qed.

Lemma drop_app_app (a b c : text) :
  drop (length a + length b) (a ++ b ++ c) = c.
Proof. rewrite app_assoc, <- length_app. apply drop_app_length. Qed.

(** Every block of the scan of [s], which is the part of the document after
    [pfx], lies where its offsets say. *)
Lemma finditer_from_spans pos s :
  forall pfx, length pfx = pos ->
  forall m, m ∈ finditer_from pos s ->
    pos <= m_start m
    /\ m_end m = m_start m + length (group0 m)
    /\ m_end m <= length (pfx ++ s)
    /\ group0 m = OPEN ++ group1 m ++ CLOSE
    /\ drop (m_start m) (pfx ++ s) = group0 m ++ drop (m_end m) (pfx ++ s)
    /\ (forall a b, drop (m_start m + length OPEN) (pfx ++ s) = a ++ CLOSE ++ b ->
          length (group1 m) <= length a).
Proof.
  revert pos s. apply (scan_ind (fun pos s => forall pfx, length pfx = pos ->
    forall m, m ∈ finditer_from pos s -> _)).
  - intros pos s E pfx Hp m Hm. rewrite finditer_from_nomatch in Hm by done.
    by apply elem_of_nil in Hm.
  - intros pos s pre payload rest E IH pfx Hp m Hm.
    rewrite (finditer_from_match _ _ _ _ _ E) in Hm.
    pose proof (search_Some _ _ _ _ E) as Hs.
    apply elem_of_cons in Hm as [->|Hm].
    + split; [cbn [match_at m_start]; lia|]. split; [apply m_span_match_at|].
      split; [rewrite m_end_match_at, Hs, !length_app; lia|].
      split; [done|]. split.
      * rewrite m_end_match_at. cbn [match_at m_start group0]. rewrite <- Hp.
        assert (s = pre ++ (OPEN ++ payload ++ CLOSE) ++ rest) as ->
          by (rewrite Hs; by rewrite <- !app_assoc).
        rewrite drop_app_app.
        by rewrite (app_assoc pre (OPEN ++ payload ++ CLOSE) rest),
          drop_app_app.
      * intros a b Hab. cbn [match_at m_start group1] in *.
        eapply (search_lazy _ _ _ _ E). rewrite <- Hab, <- Hp, Hs.
        by rewrite <- Nat.add_assoc, <- length_app,
          (app_assoc pre OPEN), drop_app_app.
    + specialize (IH (pfx ++ pre ++ OPEN ++ payload ++ CLOSE)).
      rewrite m_end_match_at in IH, Hm.
      replace ((pfx ++ pre ++ OPEN ++ payload ++ CLOSE) ++ rest)
        with (pfx ++ s) in IH by (rewrite Hs; by rewrite <- !app_assoc).
      destruct (IH ltac:(rewrite length_app; lia) m Hm) as (H1 & H2).
      split; [lia | done].
Qed.

(** Consecutive blocks: a block found later starts at or after the end of
    every block found before it. *)
Lemma finditer_from_ordered pos s :
  forall i j mi mj, i < j ->
    finditer_from pos s !! i = Some mi ->
    finditer_from pos s !! j = Some mj ->
    m_end mi <= m_start mj.
Proof.
  revert pos s. apply (scan_ind (fun pos s => forall i j mi mj, i < j ->
    finditer_from pos s !! i = Some mi ->
    finditer_from pos s !! j = Some mj -> m_end mi <= m_start mj)).
  - intros pos s E i j mi mj _ Hi. by rewrite finditer_from_nomatch in Hi.
  - intros pos s pre payload rest E IH i j mi mj Hij.
    rewrite (finditer_from_match _ _ _ _ _ E).
    destruct j as [|j]; [lia|]. destruct i as [|i]; simpl.
    + intros [= <-] Hj.
      destruct (finditer_from_spans _ rest
                  (replicate (m_end (match_at pos pre payload)) NL)
                  ltac:(by rewrite length_replicate) mj) as [H _]; [|done].
      by eapply list_elem_of_lookup_2.
    + apply IH. lia.
Qed.

(** ** The assembled text as gaps and replacements *)

Lemma length_gaps_from pos content ms :
  length (gaps_from pos content ms) = S (length ms).
Proof. revert pos; induction ms as [|m ms IH]; intros pos; simpl; auto. Qed.

Lemma slice_skipped (pfx pre tl : text) :
  slice (pfx ++ pre ++ tl) (length pfx) (length pfx + length pre) = pre.
Proof. apply slice_app_mid. Qed.

(** [re.sub] is the weave of the gaps left by [re.finditer] with the results
    of the callable on the matches of [re.finditer], called in that order. *)
Lemma re_sub_from_weave {St : Type} (repl : Match -> St -> text * St) pos s :
  forall pfx st, length pfx = pos ->
    re_sub_from repl pos s st
    = (weave (gaps_from pos (pfx ++ s) (finditer_from pos s))
             (fst (run_repl repl (finditer_from pos s) st)),
       snd (run_repl repl (finditer_from pos s) st)).
Proof.
  revert pos s. apply (scan_ind (fun pos s => forall pfx st, length pfx = pos ->
    re_sub_from repl pos s st = _)).
  - intros pos s E pfx st Hp.
    rewrite re_sub_from_nomatch, finditer_from_nomatch by done. simpl.
    by rewrite <- Hp, drop_app_length, app_nil_r.
  - intros pos s pre payload rest E IH pfx st Hp.
    rewrite (re_sub_from_match _ _ _ _ _ _ _ E).
    rewrite (finditer_from_match _ _ _ _ _ E).
    pose proof (search_Some _ _ _ _ E) as Hs.
    cbn [gaps_from run_repl weave fst snd]. cbv zeta.
    rewrite (IH (pfx ++ pre ++ OPEN ++ payload ++ CLOSE))
      by (rewrite m_end_match_at, length_app; lia).
    cbn [fst snd].
    replace ((pfx ++ pre ++ OPEN ++ payload ++ CLOSE) ++ rest)
      with (pfx ++ s) by (rewrite Hs; by rewrite <- !app_assoc).
    f_equal. f_equal.
    cbn [match_at m_start]. rewrite <- Hp, Hs. by rewrite slice_skipped.
Qed.

(** The document itself is the weave of its gaps with its blocks. *)
Lemma content_weave_from pos s :
  forall pfx, length pfx = pos ->
    s = weave (gaps_from pos (pfx ++ s) (finditer_from pos s))
              (group0 <$> finditer_from pos s).
Proof.
  revert pos s. apply (scan_ind (fun pos s => forall pfx, length pfx = pos ->
    s = _)).
  - intros pos s E pfx Hp. rewrite finditer_from_nomatch by done. simpl.
    by rewrite <- Hp, drop_app_length, app_nil_r.
  - intros pos s pre payload rest E IH pfx Hp.
    rewrite (finditer_from_match _ _ _ _ _ E).
    pose proof (search_Some _ _ _ _ E) as Hs.
    cbn [gaps_from weave fmap list_fmap].
    specialize (IH (pfx ++ pre ++ OPEN ++ payload ++ CLOSE)
                  ltac:(rewrite m_end_match_at, length_app; lia)).
    replace ((pfx ++ pre ++ OPEN ++ payload ++ CLOSE) ++ rest)
      with (pfx ++ s) in IH by (rewrite Hs; by rewrite <- !app_assoc).
    rewrite <- IH. cbn [match_at m_start group0].
    rewrite <- Hp. rewrite Hs at 2. rewrite slice_skipped.
    rewrite Hs. by rewrite <- !app_assoc.
Qed.

Lemma replace_block_snd rendered m c : snd (replace_block rendered m c) = S c.
Proof. unfold replace_block. destruct (rendered !! c); simpl; lia. Qed.

Lemma replace_block_fst rendered m c :
  fst (replace_block rendered m c) = replacement rendered c m.
Proof. unfold replace_block, replacement. by destruct (rendered !! c). Qed.

Lemma run_repl_replace_block rendered ms c :
  run_repl (replace_block rendered) ms c
  = (imap (fun k => replacement rendered (c + k)) ms, c + length ms).
Proof.
  revert c; induction ms as [|m ms IH]; intros c; simpl.
  - by rewrite Nat.add_0_r.
  - rewrite IH. cbn [fst snd].
    assert (snd (replace_block rendered m c) = S c) as ->.
    { unfold replace_block. destruct (rendered !! c); simpl; lia. }
    assert (fst (replace_block rendered m c) = replacement rendered (c + 0) m)
      as ->.
    { unfold replace_block, replacement. rewrite Nat.add_0_r.
      by destruct (rendered !! c). }
    f_equal; [|lia]. f_equal. apply imap_ext. intros i x _. simpl.
    by rewrite Nat.add_succ_r.
Qed.

Lemma run_repl_traced rendered ms c log :
  run_repl (traced (replace_block rendered)) ms (c, log)
  = (imap (fun k => replacement rendered (c + k)) ms,
     (c + length ms, log ++ imap (fun k m => (c + k, m)) ms)).
Proof.
  revert c log; induction ms as [|m ms IH]; intros c log; simpl.
  - by rewrite Nat.add_0_r, app_nil_r.
  - assert (snd (replace_block rendered m c) = S c) as ->.
    { unfold replace_block. destruct (rendered !! c); simpl; lia. }
    rewrite IH. cbn [fst snd].
    assert (fst (replace_block rendered m c) = replacement rendered (c + 0) m)
      as ->.
    { unfold replace_block, replacement. rewrite Nat.add_0_r.
      by destruct (rendered !! c). }
    f_equal; [f_equal|].
    + apply imap_ext. intros i x _. simpl. by rewrite Nat.add_succ_r.
    + f_equal; [lia|]. rewrite <- app_assoc. f_equal. simpl.
      f_equal; [by rewrite Nat.add_0_r|].
      apply imap_ext. intros i x _. simpl. by rewrite Nat.add_succ_r.
Qed.

Lemma assemble_weave rendered content :
  assemble rendered content
  = weave (gaps content) (imap (replacement rendered) (finditer content)).
Proof.
  unfold assemble, re_sub, gaps, finditer.
  rewrite (re_sub_from_weave _ 0 content [] 0 eq_refl).
  by rewrite run_repl_replace_block.
Qed.

Lemma finditer_nil content :
  finditer content = [] <-> forall k, ~ matches_at k content.
Proof.
  rewrite <- search_None. unfold finditer.
  destruct (search content) as [[[pre p] r]|] eqn:E.
  - by rewrite (finditer_from_match _ _ _ _ _ E).
  - by rewrite finditer_from_nomatch.
Qed.

Lemma weave_occurs (gs rs : list text) k r :
  rs !! k = Some r -> length rs < length gs -> occurs r (weave gs rs).
Proof.
  revert rs k; induction gs as [|g gs IH]; intros rs k Hk Hlen;
    [simpl in Hlen; lia|].
  destruct rs as [|r0 rs]; [done|]. destruct k as [|k]; simpl in *.
  - injection Hk as ->. by exists g, (weave gs rs).
  - destruct (IH rs k Hk ltac:(lia)) as (a & b & Hab).
    exists (g ++ r0 ++ a), b. rewrite Hab. by rewrite <- !app_assoc.
Qed.

Lemma finditer_spans content m :
  m ∈ finditer content ->
  m_end m = m_start m + length (group0 m)
  /\ m_end m <= length content
  /\ group0 m = OPEN ++ group1 m ++ CLOSE
  /\ drop (m_start m) content = group0 m ++ drop (m_end m) content
  /\ (forall a b, drop (m_start m + length OPEN) content = a ++ CLOSE ++ b ->
        length (group1 m) <= length a).
Proof.
  intros Hm.
  by destruct (finditer_from_spans 0 content [] eq_refl m Hm) as (_ & H).
Qed.

Lemma finditer_slice content m :
  m ∈ finditer content -> slice content (m_start m) (m_end m) = group0 m.
Proof.
  intros (He & _ & _ & Hd & _)%finditer_spans.
  unfold slice. rewrite Hd, He.
  replace (m_start m + length (group0 m) - m_start m)
    with (length (group0 m)) by lia.
  by rewrite take_app_length.
Qed.

Lemma finditer_payload_closed content m :
  m ∈ finditer content -> ~ occurs CLOSE (group1 m).
Proof.
  intros (He & _ & Hg & Hd & Hlazy)%finditer_spans (a & b & Hab).
  specialize (Hlazy a (b ++ CLOSE ++ drop (m_end m) content)).
  rewrite <- drop_drop, Hd, Hg, <- app_assoc, drop_app_length in Hlazy.
  rewrite Hab in Hlazy at 1. rewrite <- !app_assoc in Hlazy.
  specialize (Hlazy eq_refl). rewrite Hab, !length_app in Hlazy.
  assert (length CLOSE = 3) by done. lia.
Qed.

(** ** The claims about extraction and assembly *)

(** C8: extraction yields the blocks in document order with pairwise
    disjoint spans; each span is the opening delimiter, the payload and the
    closing delimiter as they stand in the document, and the closing
    delimiter taken is the first one after the opening delimiter (lazy
    matching), so that no payload holds a closing delimiter and two adjacent
    blocks are never merged. *)
Theorem C8_extraction_disjoint_lazy (content : text) :
  let blocks := finditer content in
  (forall i m, blocks !! i = Some m ->
     m_end m = m_start m + length (group0 m)
     /\ m_end m <= length content
     /\ slice content (m_start m) (m_end m) = group0 m
     /\ group0 m = OPEN ++ group1 m ++ CLOSE
     /\ (forall a b,
           drop (m_start m + length OPEN) content = a ++ CLOSE ++ b ->
           length (group1 m) <= length a)
     /\ ~ occurs CLOSE (group1 m))
  /\ (forall i j mi mj, i < j ->
        blocks !! i = Some mi -> blocks !! j = Some mj ->
        m_end mi <= m_start mj).
Proof.
  split.
  - intros i m Hm%list_elem_of_lookup_2.
    destruct (finditer_spans _ _ Hm) as (He & Hl & Hg & _ & Hlazy).
    repeat split; try done.
    + by apply finditer_slice.
    + by apply (finditer_payload_closed content).
  - apply finditer_from_ordered.
Qed.

(** C5: when the pattern matches nowhere in the document (zero blocks), the
    assembled text is the document itself. *)
Theorem C5_no_blocks_identity (rendered : gmap nat text) (content : text) :
  finditer content = [] -> assemble rendered content = content.
Proof.
  intros H. rewrite assemble_weave. unfold gaps. rewrite H. simpl.
  by rewrite drop_0, app_nil_r.
Qed.

Lemma C5_no_blocks_identity_witness :
  finditer (T "# Whitepaper, no diagram") = []
  /\ assemble {[ 0 := png_path 0 ]} (T "# Whitepaper, no diagram")
     = T "# Whitepaper, no diagram".
Proof.
  split; [reflexivity|].
  apply (C5_no_blocks_identity _ (T "# Whitepaper, no diagram")).
  reflexivity.
Defined.

(** C9: the document is its gaps (the text outside all block spans)
    interleaved with its block spans, and the assembled text is the same
    gaps, unchanged and in the same order, interleaved with what each block
    becomes: the image reference for a block with a recorded artifact, the
    block's own span otherwise. *)
Theorem C9_text_outside_blocks_kept (rendered : gmap nat text) (content : text) :
  let blocks := finditer content in
  length (gaps content) = S (length blocks)
  /\ content = weave (gaps content) (group0 <$> blocks)
  /\ assemble rendered content
     = weave (gaps content) (imap (replacement rendered) blocks)
  /\ (forall k m, blocks !! k = Some m ->
        slice content (m_start m) (m_end m) = group0 m
        /\ (rendered !! k = None -> replacement rendered k m = group0 m)
        /\ (forall png, rendered !! k = Some png ->
              replacement rendered k m = image_ref k png)).
Proof.
  split; [apply length_gaps_from|].
  split; [apply (content_weave_from 0 content [] eq_refl)|].
  split; [apply assemble_weave|].
  intros k m Hm. split; [|split].
  - apply finditer_slice. by eapply list_elem_of_lookup_2.
  - unfold replacement. by intros ->.
  - unfold replacement. by intros png ->.
Qed.

(** C3: the substitution pass calls [replace_block] once per block found by
    extraction, in the same order: the N-th call receives the N-th block of
    [re.finditer] (same offsets, same groups) and finds N in [counter]. *)
Theorem C3_substitution_reuses_indices (rendered : gmap nat text)
    (content : text) :
  let blocks := finditer content in
  re_sub (traced (replace_block rendered)) content (0, [])
  = (assemble rendered content,
     (length blocks, imap (fun n m => (n, m)) blocks))
  /\ forall n,
       snd (snd (re_sub (traced (replace_block rendered)) content (0, [])))
         !! n
       = (fun m => (n, m)) <$> blocks !! n.
Proof.
  assert (re_sub (traced (replace_block rendered)) content (0, [])
          = (assemble rendered content,
             (length (finditer content),
              imap (fun n m => (n, m)) (finditer content)))) as Heq.
  { unfold re_sub. rewrite (re_sub_from_weave _ 0 content [] _ eq_refl).
    rewrite run_repl_traced. cbn [fst snd]. rewrite assemble_weave.
    by unfold gaps, finditer. }
  split; [done|]. intros n. rewrite Heq. cbn [snd].
  by rewrite list_lookup_imap.
Qed.

Lemma str_of_nat_inj n n' : str_of_nat n = str_of_nat n' -> n = n'.
Proof.
  unfold str_of_nat, T. intros H.
  apply (f_equal string_of_list_ascii) in H.
  rewrite !string_of_list_ascii_of_string in H.
  apply (f_equal NilEmpty.uint_of_string) in H.
  rewrite !NilEmpty.usu in H. injection H as H.
  by apply Unsigned.to_uint_inj.
Qed.

Lemma str_of_nat_nonempty n : str_of_nat n <> [].
Proof.
  unfold str_of_nat. destruct (Nat.to_uint n) as [|d|d|d|d|d|d|d|d|d|d] eqn:E;
    try discriminate.
  pose proof (Unsigned.of_to n) as H. rewrite E in H. simpl in H. subst n.
  discriminate E.
Qed.

(** [str(n)] is a numeral that reads back as [n]. *)
Lemma decimal_value_str_of_nat n : decimal_value (str_of_nat n) = Some n.
Proof.
  pose proof (str_of_nat_nonempty n) as Hne. unfold decimal_value.
  destruct (str_of_nat n) as [|c t] eqn:E; [done|]. rewrite <- E.
  unfold str_of_nat, T.
  rewrite string_of_list_ascii_of_string, NilEmpty.usu. simpl.
  f_equal. apply Unsigned.of_to.
Qed.

(** C1: when block K has no recorded artifact and every other block has
    one, the assembled text is the gaps interleaved with N replacements, the
    K-th being block K's own span, which therefore occurs unchanged in the
    assembled text, and the j-th for j other than K being the image reference
    [![Diagram j](png)], with the decimal numeral of j and the artifact path
    [png] recorded for index j. *)
Theorem C1_failed_block_kept (rendered : gmap nat text) (content : text)
    (K : nat) (mK : Match) :
  let blocks := finditer content in
  blocks !! K = Some mK ->
  rendered !! K = None ->
  (forall j, j < length blocks -> j <> K -> is_Some (rendered !! j)) ->
  exists reps,
    length reps = length blocks
    /\ assemble rendered content = weave (gaps content) reps
    /\ reps !! K = Some (slice content (m_start mK) (m_end mK))
    /\ slice content (m_start mK) (m_end mK) = OPEN ++ group1 mK ++ CLOSE
    /\ occurs (slice content (m_start mK) (m_end mK))
         (assemble rendered content)
    /\ (forall j, j < length blocks -> j <> K ->
          exists png,
            rendered !! j = Some png
            /\ decimal_value (str_of_nat j) = Some j
            /\ reps !! j
               = Some (T "![Diagram " ++ str_of_nat j ++ T "](" ++ png
                         ++ T ")")).
Proof.
  intros blocks HK Hnone Hothers.
  assert (mK ∈ finditer content) as Hin by (by eapply list_elem_of_lookup_2).
  exists (imap (replacement rendered) blocks).
  assert (imap (replacement rendered) blocks !! K
          = Some (slice content (m_start mK) (m_end mK))) as HrK.
  { rewrite list_lookup_imap. fold blocks in HK. rewrite HK. simpl.
    unfold replacement. rewrite Hnone. by rewrite finditer_slice. }
  split; [by rewrite length_imap|].
  split; [apply assemble_weave|].
  split; [done|].
  split.
  { rewrite finditer_slice by done.
    by destruct (finditer_spans _ _ Hin) as (_ & _ & Hg & _). }
  split.
  { rewrite assemble_weave. eapply weave_occurs; [done|].
    unfold gaps. rewrite length_gaps_from, length_imap. fold blocks. lia. }
  intros j Hj HjK. destruct (Hothers j Hj HjK) as [png Hpng].
  exists png. split; [done|].
  split; [apply decimal_value_str_of_nat|]. rewrite list_lookup_imap.
  destruct (lookup_lt_is_Some_2 blocks j Hj) as [mj Hmj].
  rewrite Hmj. simpl. unfold replacement. by rewrite Hpng.
Qed.

Lemma C1_failed_block_kept_witness :
  exists reps,
    length reps = 3
    /\ assemble {[ 0 := png_path 0; 2 := png_path 2 ]} three_blocks
       = weave (gaps three_blocks) reps
    /\ reps !! 1 = Some (slice three_blocks 17 32)
    /\ slice three_blocks 17 32 = OPEN ++ T "B" ++ CLOSE
    /\ occurs (slice three_blocks 17 32)
         (assemble {[ 0 := png_path 0; 2 := png_path 2 ]} three_blocks)
    /\ (forall j, j < 3 -> j <> 1 ->
          exists png,
            ({[ 0 := png_path 0; 2 := png_path 2 ]} : gmap nat text) !! j
              = Some png
            /\ decimal_value (str_of_nat j) = Some j
            /\ reps !! j
               = Some (T "![Diagram " ++ str_of_nat j ++ T "](" ++ png
                         ++ T ")")).
Proof.
  apply (C1_failed_block_kept {[ 0 := png_path 0; 2 := png_path 2 ]}
           three_blocks 1
           {| m_start := 17; m_end := 32;
              group0 := OPEN ++ T "B" ++ CLOSE; group1 := T "B" |}).
  - reflexivity.
  - reflexivity.
  - intros j Hj Hne.
    destruct j as [|[|[|j]]]; [by eexists | done | by eexists | ].
    change (length (finditer three_blocks)) with 3 in Hj. lia.
Defined.

(** ** No block is left when every block was rendered *)

Lemma string_of_uint_no_backtick (d : uint) :
  BACKTICK ∉ T (NilEmpty.string_of_uint d).
Proof.
  induction d; simpl; [apply not_elem_of_nil|..];
    (apply not_elem_of_cons; split; [discriminate | assumption]).
Qed.

Lemma str_of_nat_no_backtick n : BACKTICK ∉ str_of_nat n.
Proof. apply string_of_uint_no_backtick. Qed.

Lemma T_no_backtick (s : string) :
  forallb (fun c => negb (Ascii.eqb c BACKTICK)) (T s) = true ->
  BACKTICK ∉ T s.
Proof.
  induction (T s) as [|c l IH]; simpl; [intros _; apply not_elem_of_nil|].
  intros [Hc Hl]%andb_prop. apply not_elem_of_cons. split; [|by apply IH].
  intros <-. by rewrite Ascii.eqb_refl in Hc.
Qed.

Lemma png_path_no_backtick i : BACKTICK ∉ png_path i.
Proof.
  unfold png_path, path_join, DIAGRAM_DIR.
  rewrite !not_elem_of_app. repeat split;
    first [apply str_of_nat_no_backtick | by apply T_no_backtick].
Qed.

Lemma image_ref_no_backtick k p : BACKTICK ∉ p -> BACKTICK ∉ image_ref k p.
Proof.
  intros Hp. unfold image_ref. rewrite !not_elem_of_app. repeat split;
    first [assumption | apply str_of_nat_no_backtick | by apply T_no_backtick].
Qed.

Lemma image_ref_head k p : exists tl, image_ref k p = "!"%char :: tl.
Proof. by eexists. Qed.

(** If [p] is a prefix of [u ++ c :: w] and [c] is not in [p], then [p] lies
    within [u]. *)
Lemma prefix_before (p body u w : text) (c : ascii) :
  c ∉ p -> p ++ body = u ++ c :: w -> exists u', u = p ++ u'.
Proof.
  revert u; induction p as [|x p IH]; intros u Hc H; [by exists u|].
  apply not_elem_of_cons in Hc as [Hx Hc].
  destruct u as [|y u]; simpl in H.
  - injection H as -> _. done.
  - injection H as -> H. destruct (IH u Hc H) as [u' ->]. by exists u'.
Qed.

Lemma OPEN_head : exists tl, OPEN = BACKTICK :: tl.
Proof. by eexists. Qed.

Lemma bang_not_in_OPEN : "!"%char ∉ OPEN.
Proof.
  unfold OPEN. apply not_elem_of_app. split.
  - intros H%list_elem_of_In. simpl in H. intuition discriminate.
  - intros H%list_elem_of_In. simpl in H. intuition discriminate.
Qed.

(** A match found in [s] leaves no opening delimiter that starts in the text
    skipped before it. *)
Lemma search_skipped_clean s pre payload rest k tl :
  search s = Some (pre, payload, rest) ->
  k < length pre -> drop k pre <> OPEN ++ tl.
Proof.
  intros E Hk Hd. pose proof (search_Some _ _ _ _ E) as Hs.
  apply search_leftmost in E as [Hleft _]. apply (Hleft k Hk).
  exists (tl ++ OPEN ++ payload ++ CLOSE ++ rest). split.
  - rewrite Hs, drop_app_le by lia. rewrite Hd. by rewrite <- app_assoc.
  - exists (tl ++ OPEN ++ payload), rest. by rewrite <- !app_assoc.
Qed.

(** Gluing: the skipped text, a replacement that starts with an exclamation
    mark and holds no backtick, and a text without a match form a text
    without a match. *)
Lemma search_None_glue s pre payload rest ref t :
  search s = Some (pre, payload, rest) ->
  BACKTICK ∉ ref -> (exists tl, ref = "!"%char :: tl) ->
  search t = None ->
  search (pre ++ ref ++ t) = None.
Proof.
  intros E Hclean [tl ->] Ht. apply search_None.
  intros k (body & Hd & Hocc).
  destruct (decide (k < length pre)) as [Hk|Hk].
  - rewrite drop_app_le in Hd by lia. symmetry in Hd.
    apply (prefix_before OPEN body (drop k pre) (tl ++ t) "!"%char) in Hd
      as [u' Hu']; [|apply bang_not_in_OPEN].
    by eapply search_skipped_clean.
  - rewrite drop_app_ge in Hd by lia.
    destruct (decide (k - length pre < length ("!"%char :: tl))) as [Hr|Hr].
    + rewrite drop_app_le in Hd by lia.
      destruct (drop (k - length pre) ("!"%char :: tl)) as [|c u] eqn:Eu.
      { apply (f_equal length) in Eu. rewrite length_drop in Eu.
        simpl in Eu, Hr. lia. }
      assert (c ∈ "!"%char :: tl) as Hc.
      { apply (list_elem_of_lookup_2 _ (k - length pre + 0)).
        by rewrite <- lookup_drop, Eu. }
      destruct OPEN_head as [otl Ho]. rewrite Ho in Hd. simpl in Hd.
      injection Hd as -> _. done.
    + rewrite drop_app_ge in Hd by lia.
      apply (proj1 (search_None t) Ht
               (k - length pre - length ("!"%char :: tl))).
      by exists body.
Qed.

Lemma sub_all_rendered_no_match (rendered : gmap nat text) pos s :
  forall c,
    (forall i, c <= i < c + length (finditer_from pos s) ->
       exists p, rendered !! i = Some p /\ BACKTICK ∉ p) ->
    search (fst (re_sub_from (replace_block rendered) pos s c)) = None.
Proof.
  revert pos s. apply (scan_ind (fun pos s => forall c,
    (forall i, c <= i < c + length (finditer_from pos s) -> _) ->
    search (fst (re_sub_from (replace_block rendered) pos s c)) = None)).
  - intros pos s E c _. by rewrite re_sub_from_nomatch.
  - intros pos s pre payload rest E IH c Hall.
    rewrite (finditer_from_match _ _ _ _ _ E) in Hall. cbn [length] in Hall.
    rewrite (re_sub_from_match _ _ _ _ _ _ _ E). cbv zeta. cbn [fst].
    destruct (Hall c ltac:(lia)) as (p & Hp & Hclean).
    rewrite replace_block_snd, replace_block_fst. unfold replacement.
    rewrite Hp.
    eapply search_None_glue; eauto using image_ref_no_backtick, image_ref_head.
    apply IH. intros i Hi. apply Hall. lia.
Qed.

(** ** The rendering loop *)

Lemma render_block_written env i m (rendered : gmap nat text) :
  scratch_write env i = None ->
  exists ev,
    render_block env i m rendered
    = (ev, Done (if render_ok env i then <[i := png_path i]> rendered
                 else rendered))
    /\ invocations ev = [mmdc_argv (mmd_path i) (png_path i)]
    /\ files_written ev = [(mmd_path i, group1 m)]
    /\ claims_success ev = false.
Proof.
  intros Hw. unfold render_block, write_scratch, render_ok. rewrite Hw.
  destruct (mmdc env i) as [e|rc out err]; [|destruct (png_exists env i)];
    by eexists.
Qed.

Lemma render_block_unwritten env i m (rendered : gmap nat text) e :
  scratch_write env i = Some e ->
  render_block env i m rendered = ([], Raise e).
Proof. intros Hw. unfold render_block, write_scratch. by rewrite Hw. Qed.

Lemma invocations_app ev1 ev2 :
  invocations (ev1 ++ ev2) = invocations ev1 ++ invocations ev2.
Proof. apply omap_app. Qed.

Lemma files_written_app ev1 ev2 :
  files_written (ev1 ++ ev2) = files_written ev1 ++ files_written ev2.
Proof. apply omap_app. Qed.

Lemma claims_success_app ev1 ev2 :
  claims_success (ev1 ++ ev2) = claims_success ev1 || claims_success ev2.
Proof. apply existsb_app. Qed.

(** When every scratch file can be written the loop ends normally, whatever
    the renderer does, after one invocation per block in order. *)
Lemma render_loop_written env blocks :
  forall i (rendered0 : gmap nat text),
    (forall j, i <= j < i + length blocks -> scratch_write env j = None) ->
    exists ev rendered,
      render_loop env i blocks rendered0 = (ev, Done rendered)
      /\ (forall j, rendered !! j
                    = if decide (i <= j < i + length blocks)
                      then (if render_ok env j then Some (png_path j)
                            else rendered0 !! j)
                      else rendered0 !! j)
      /\ invocations ev
         = (fun j => mmdc_argv (mmd_path j) (png_path j))
             <$> seq i (length blocks)
      /\ files_written ev
         = imap (fun k m => (mmd_path (i + k), group1 m)) blocks
      /\ claims_success ev = false.
Proof.
  induction blocks as [|m blocks IH]; intros i rendered0 Hw.
  - exists [], rendered0. repeat split; try done.
    intros j. case_decide; [simpl in *; lia | done].
  - destruct (render_block_written env i m rendered0 (Hw i ltac:(simpl; lia)))
      as (ev1 & Hb & Hi1 & Hf1 & Hc1).
    destruct (IH (S i)
                (if render_ok env i then <[i := png_path i]> rendered0
                 else rendered0)
                ltac:(intros j Hj; apply Hw; simpl; lia))
      as (ev2 & rendered & Hl & Hr & Hi2 & Hf2 & Hc2).
    exists (ev1 ++ ev2), rendered. split; [|split; [|split; [|split]]].
    + cbn [render_loop]. rewrite Hb. unfold mbind, Script_bind.
      by rewrite Hl.
    + intros j. rewrite Hr. cbn [length].
      destruct (decide (j = i)) as [->|Hne].
      * rewrite decide_False by lia. rewrite decide_True by lia.
        destruct (render_ok env i); [by rewrite lookup_insert_eq | done].
      * repeat case_decide; try lia; try done.
        all: destruct (render_ok env i); try done.
        all: rewrite lookup_insert_ne by done.
        all: done.
    + rewrite invocations_app, Hi1, Hi2. done.
    + rewrite files_written_app, Hf1, Hf2. cbn [imap]. simpl.
      rewrite Nat.add_0_r. f_equal. apply imap_ext. intros k x _. simpl.
      by rewrite Nat.add_succ_r.
    + by rewrite claims_success_app, Hc1, Hc2.
Qed.

(** A scratch file that cannot be written ends the loop at its block. *)
Lemma render_loop_unwritten env blocks :
  forall i (rendered0 : gmap nat text) k m e,
    blocks !! k = Some m ->
    (forall j, i <= j < i + k -> scratch_write env j = None) ->
    scratch_write env (i + k) = Some e ->
    exists ev,
      render_loop env i blocks rendered0 = (ev, Raise e)
      /\ invocations ev
         = (fun j => mmdc_argv (mmd_path j) (png_path j)) <$> seq i k.
Proof.
  induction blocks as [|m0 blocks IH]; intros i rendered0 k m e Hk Hw He;
    [done|].
  destruct k as [|k].
  - rewrite Nat.add_0_r in He. exists []. split; [|done].
    cbn [render_loop]. by rewrite (render_block_unwritten _ _ _ _ _ He).
  - destruct (render_block_written env i m0 rendered0 (Hw i ltac:(lia)))
      as (ev1 & Hb & Hi1 & _).
    destruct (IH (S i)
                (if render_ok env i then <[i := png_path i]> rendered0
                 else rendered0) k m e Hk
                ltac:(intros j Hj; apply Hw; lia)
                ltac:(by rewrite <- He; f_equal; lia))
      as (ev2 & Hl & Hi2).
    exists (ev1 ++ ev2). split.
    + cbn [render_loop]. rewrite Hb. unfold mbind, Script_bind.
      by rewrite Hl.
    + by rewrite invocations_app, Hi1, Hi2.
Qed.

(** Whatever the loop records is the artifact path of the block's index. *)
Lemma render_loop_paths env blocks :
  forall i (rendered0 rendered : gmap nat text) ev,
    render_loop env i blocks rendered0 = (ev, Done rendered) ->
    forall j p, rendered !! j = Some p ->
      rendered0 !! j = Some p \/ p = png_path j.
Proof.
  induction blocks as [|m blocks IH]; intros i rendered0 rendered ev Hl j p Hj.
  - injection Hl as _ <-. by left.
  - cbn [render_loop] in Hl.
    destruct (scratch_write env i) as [e|] eqn:Hw.
    + by rewrite (render_block_unwritten _ _ _ _ _ Hw) in Hl.
    + destruct (render_block_written env i m rendered0 Hw) as (ev1 & Hb & _).
      rewrite Hb in Hl. unfold mbind, Script_bind in Hl.
      destruct (render_loop env (S i) blocks _) as [ev2 r2] eqn:Hl2.
      injection Hl as _ ->.
      destruct (IH _ _ _ _ Hl2 j p Hj) as [H0| ->]; [|by right].
      destruct (render_ok env i); [|by left].
      destruct (decide (i = j)) as [->|Hne].
      * rewrite lookup_insert_eq in H0. injection H0 as <-. by right.
      * rewrite lookup_insert_ne in H0 by done. by left.
Qed.

(** The script once the loop has ended normally: the converter is invoked
    and its result alone decides how the script ends. *)
Lemma main_after_loop env ev (rendered : gmap nat text) :
  render_loop env 0 (finditer (whitepaper env)) ∅ = (ev, Done rendered) ->
  claims_success ev = false ->
  Invoke pandoc_argv ∈ fst (main env)
  /\ match pandoc env with
     | Completed rc _ _ =>
         if (rc =? 0)%Z
         then match pdf_getsize env with
              | Size _ =>
                  snd (main env) = Done tt
                  /\ claims_success (fst (main env)) = true
              | StatRaises e =>
                  snd (main env) = Raise e
                  /\ claims_success (fst (main env)) = false
              end
         else snd (main env) = Exit 1
              /\ claims_success (fst (main env)) = false
     | RunRaises e =>
         snd (main env) = Raise e /\ claims_success (fst (main env)) = false
     end.
Proof.
  intros Hl Hc. unfold main. cbv zeta.
  cbn [mbind Script_bind emit print fst snd].
  rewrite Hl. cbn [mbind Script_bind emit print fst snd subprocess_run].
  destruct (pandoc env) as [e|rc out err];
    [|destruct (rc =? 0)%Z; [destruct (pdf_getsize env) as [e|bytes]|]];
    cbn [mbind Script_bind emit print sys_exit os_path_getsize fst snd app].
  all: split; [set_solver|].
  all: split; [done|].
  all: unfold claims_success; cbn [existsb]; rewrite existsb_app.
  all: fold (claims_success ev); rewrite Hc.
  all: reflexivity.
Qed.

(** The script when a scratch file cannot be written: the exception leaves
    the loop and the script. *)
Lemma main_loop_raises env ev e :
  render_loop env 0 (finditer (whitepaper env)) ∅ = (ev, Raise e) ->
  snd (main env) = Raise e
  /\ invocations (fst (main env)) = invocations ev.
Proof.
  intros Hl. unfold main. cbv zeta.
  cbn [mbind Script_bind emit print fst snd].
  rewrite Hl. cbn [mbind Script_bind emit print fst snd app].
  split; [done|]. unfold invocations. cbn [omap list_omap].
  done.
Qed.

(** ** The claims about the rendering loop and the exit status *)

(** The script does not read the renderer's exit status: block 2 of
    [mixed_env] is recorded although the renderer exited with status 1. *)
Lemma C2_exit_status_not_consulted :
  ~ recorded_iff_exit_zero_and_artifact mixed_env.
Proof.
  intros H.
  destruct (H {[ 0 := png_path 0; 2 := png_path 2 ]} eq_refl 2) as [H1 _].
  { change (length (finditer (whitepaper mixed_env))) with 3. lia. }
  destruct H1 as [H1 _]; [by eexists | discriminate].
Qed.

Lemma elem_of_invocations (ev : list Event) (a : list text) :
  Invoke a ∈ ev <-> a ∈ invocations ev.
Proof.
  unfold invocations. rewrite list_elem_of_omap. split.
  - intros H. by exists (Invoke a).
  - intros (e & He & Heq). destruct e; try discriminate.
    by injection Heq as ->.
Qed.

Lemma mmd_path_inj i j : mmd_path i = mmd_path j -> i = j.
Proof.
  unfold mmd_path, path_join. intros H. do 3 apply app_inv_head in H.
  apply app_inj_2 in H as [H _]; [|done]. by apply str_of_nat_inj.
Qed.

Lemma mmdc_argv_inj i j :
  mmdc_argv (mmd_path i) (png_path i) = mmdc_argv (mmd_path j) (png_path j) ->
  i = j.
Proof.
  intros H.
  assert (Some (mmd_path i) = Some (mmd_path j)) as Hs
    by exact (f_equal (fun l : list text => l !! 2) H).
  apply (inj Some) in Hs. by apply mmd_path_inj.
Qed.

Lemma render_loop_cons_written env i m blocks (r0 : gmap nat text) :
  scratch_write env i = None ->
  exists ev1,
    render_block env i m r0
    = (ev1, Done (if render_ok env i then <[i := png_path i]> r0 else r0))
    /\ invocations ev1 = [mmdc_argv (mmd_path i) (png_path i)]
    /\ fst (render_loop env i (m :: blocks) r0)
       = ev1 ++ fst (render_loop env (S i) blocks
                       (if render_ok env i then <[i := png_path i]> r0
                        else r0)).
Proof.
  intros Hw.
  destruct (render_block_written env i m r0 Hw) as (ev1 & Hb & Hi & _).
  exists ev1. split; [done|]. split; [done|].
  cbn [render_loop]. rewrite Hb. unfold mbind, Script_bind.
  by destruct (render_loop env (S i) blocks _).
Qed.

(** The renderer is started for a block exactly when the loop reaches the
    block and writes its scratch file. *)
Lemma render_loop_invoked env blocks :
  forall i0 (r0 : gmap nat text) i,
    Invoke (mmdc_argv (mmd_path i) (png_path i))
      ∈ fst (render_loop env i0 blocks r0)
    <-> i0 <= i < i0 + length blocks
        /\ forall j, i0 <= j <= i -> scratch_write env j = None.
Proof.
  induction blocks as [|m blocks IH]; intros i0 r0 i.
  - simpl. split; [by intros ?%elem_of_nil | lia].
  - destruct (scratch_write env i0) as [e|] eqn:Hw.
    + cbn [render_loop]. rewrite (render_block_unwritten _ _ _ _ _ Hw).
      simpl. split; [by intros ?%elem_of_nil|].
      intros [Hi Hall]. specialize (Hall i0 ltac:(lia)). congruence.
    + destruct (render_loop_cons_written env i0 m blocks r0 Hw)
        as (ev1 & _ & Hi1 & ->).
      rewrite elem_of_app, IH, elem_of_invocations, Hi1.
      rewrite list_elem_of_singleton. cbn [length]. split.
      * intros [->%mmdc_argv_inj|[Hi Hall]].
        -- split; [lia|]. intros j Hj. by replace j with i0 by lia.
        -- split; [lia|]. intros j Hj.
           destruct (decide (j = i0)) as [->|]; [done|]. apply Hall. lia.
      * intros [Hi Hall]. destruct (decide (i = i0)) as [->|]; [by left|].
        right. split; [lia|]. intros j Hj. apply Hall. lia.
Qed.

Lemma render_loop_state_below env blocks :
  forall i0 (r0 : gmap nat text) j,
    j < i0 -> render_loop_state env i0 blocks r0 !! j = r0 !! j.
Proof.
  induction blocks as [|m blocks IH]; intros i0 r0 j Hj; [done|].
  cbn [render_loop_state].
  destruct (scratch_write env i0) as [e|] eqn:Hw.
  - by rewrite (render_block_unwritten _ _ _ _ _ Hw).
  - destruct (render_block_written env i0 m r0 Hw) as (ev1 & -> & _).
    cbn [snd]. rewrite IH by lia.
    destruct (render_ok env i0); [|done]. apply lookup_insert_ne. lia.
Qed.

Lemma render_loop_state_recorded env blocks :
  forall i0 (r0 : gmap nat text) j,
    i0 <= j < i0 + length blocks ->
    (forall l, i0 <= l <= j -> scratch_write env l = None) ->
    render_ok env j = true ->
    render_loop_state env i0 blocks r0 !! j = Some (png_path j).
Proof.
  induction blocks as [|m blocks IH]; intros i0 r0 j Hj Hall Hok;
    [simpl in Hj; lia|].
  cbn [render_loop_state].
  destruct (render_block_written env i0 m r0 (Hall i0 ltac:(lia)))
    as (ev1 & -> & _).
  cbn [snd]. destruct (decide (j = i0)) as [->|Hne].
  - rewrite render_loop_state_below by lia. rewrite Hok.
    apply lookup_insert_eq.
  - apply IH; [cbn [length] in Hj; lia | | done].
    intros l Hl. apply Hall. lia.
Qed.

Lemma render_loop_state_origin env blocks :
  forall i0 (r0 : gmap nat text) j p,
    render_loop_state env i0 blocks r0 !! j = Some p ->
    r0 !! j = Some p
    \/ (p = png_path j
        /\ i0 <= j < i0 + length blocks
        /\ (forall l, i0 <= l <= j -> scratch_write env l = None)
        /\ render_ok env j = true).
Proof.
  induction blocks as [|m blocks IH]; intros i0 r0 j p Hp; [by left|].
  cbn [render_loop_state] in Hp.
  destruct (scratch_write env i0) as [e|] eqn:Hw.
  - rewrite (render_block_unwritten _ _ _ _ _ Hw) in Hp. by left.
  - destruct (render_block_written env i0 m r0 Hw) as (ev1 & Hb & _).
    rewrite Hb in Hp. cbn [snd] in Hp.
    destruct (IH _ _ _ _ Hp) as [H0|(-> & Hj & Hall & Hok)].
    + destruct (render_ok env i0) eqn:Hok0; [|by left].
      destruct (decide (i0 = j)) as [->|Hne].
      * rewrite lookup_insert_eq in H0. injection H0 as <-. right.
        split; [done|]. split; [cbn [length]; lia|]. split; [|done].
        intros l Hl. by replace l with j by lia.
      * rewrite lookup_insert_ne in H0 by done. by left.
    + right. split; [done|]. split; [cbn [length]; lia|]. split; [|done].
      intros l Hl. destruct (decide (l = i0)) as [->|]; [done|].
      apply Hall. lia.
Qed.

Lemma render_loop_state_Done env blocks :
  forall i0 (r0 rendered : gmap nat text) ev,
    render_loop env i0 blocks r0 = (ev, Done rendered) ->
    render_loop_state env i0 blocks r0 = rendered.
Proof.
  induction blocks as [|m blocks IH]; intros i0 r0 rendered ev Hl.
  - by injection Hl as _ <-.
  - cbn [render_loop] in Hl. cbn [render_loop_state].
    destruct (scratch_write env i0) as [e|] eqn:Hw.
    + by rewrite (render_block_unwritten _ _ _ _ _ Hw) in Hl.
    + destruct (render_block_written env i0 m r0 Hw) as (ev1 & Hb & _).
      rewrite Hb in Hl |- *. cbn [snd]. unfold mbind, Script_bind in Hl.
      destruct (render_loop env (S i0) blocks _) as [ev2 r2] eqn:Hl2.
      injection Hl as _ ->. by eapply IH.
Qed.

(** C2 (amended): block [i] is recorded, with the artifact path of its
    index, exactly when the renderer was started for it, the invocation
    returned without raising (whatever its exit status) and the artifact
    exists afterwards; in every other case nothing is recorded for it.  The
    mapping meant is the dict as it stands when the loop stops, which is the
    result of the loop when it ends normally; the renderer is started for a
    block exactly when the scratch files up to that block could be
    written. *)
Theorem C2_recorded_iff_returned_and_artifact (env : Env) :
  let blocks := finditer (whitepaper env) in
  let rendered := rendered_at_stop env in
  (forall ev r, render_loop env 0 blocks ∅ = (ev, Done r) -> r = rendered)
  /\ (forall i, i < length blocks ->
        (rendered !! i = Some (png_path i)
         <-> renderer_invoked env i
             /\ (exists rc out err, mmdc env i = Completed rc out err)
             /\ png_exists env i = true)
        /\ (rendered !! i = None
            <-> ~ renderer_invoked env i
                \/ (exists e, mmdc env i = RunRaises e)
                \/ png_exists env i = false))
  /\ (forall i p, rendered !! i = Some p ->
        i < length blocks /\ p = png_path i)
  /\ (forall i, renderer_invoked env i
                <-> i < length blocks
                    /\ forall j, j <= i -> scratch_write env j = None).
Proof.
  intros blocks rendered.
  assert (forall i, renderer_invoked env i
                    <-> i < length blocks
                        /\ forall j, j <= i -> scratch_write env j = None)
    as Hinv.
  { intros i. unfold renderer_invoked. fold blocks.
    rewrite render_loop_invoked. split.
    - intros [Hi Hall]. split; [lia|]. intros j Hj. apply Hall. lia.
    - intros [Hi Hall]. split; [lia|]. intros j Hj. apply Hall. lia. }
  assert (forall i, render_ok env i = true
                    <-> (exists rc out err, mmdc env i = Completed rc out err)
                        /\ png_exists env i = true) as Hok.
  { intros i. unfold render_ok. destruct (mmdc env i) as [e|rc out err].
    - split; [done|]. by intros [(? & ? & ? & ?) _].
    - split; [intros ->; split; [by do 3 eexists | done] | by intros [_ ?]]. }
  assert (forall i p, rendered !! i = Some p ->
            p = png_path i /\ renderer_invoked env i
            /\ render_ok env i = true) as Horigin.
  { intros i p Hp.
    destruct (render_loop_state_origin env blocks 0 ∅ i p Hp)
      as [H0|(-> & Hi & Hall & Hr)]; [by rewrite lookup_empty in H0|].
    split; [done|]. split; [|done]. apply Hinv. split; [lia|].
    intros j Hj. apply Hall. lia. }
  assert (forall i, renderer_invoked env i -> render_ok env i = true ->
            rendered !! i = Some (png_path i)) as Hrec.
  { intros i [Hi Hall]%Hinv Hr.
    apply render_loop_state_recorded; [fold blocks; lia | | done].
    intros l Hl. apply Hall. lia. }
  split; [|split; [|split]].
  - intros ev r Hl. symmetry. by eapply render_loop_state_Done.
  - intros i Hi. split.
    + rewrite <- Hok. split.
      * intros Hp. by destruct (Horigin i _ Hp) as (_ & ? & ?).
      * intros [? ?]. by apply Hrec.
    + split.
      * intros Hnone. destruct (render_ok env i) eqn:Hr.
        -- left. intros Hin. by rewrite (Hrec i Hin Hr) in Hnone.
        -- right. unfold render_ok in Hr.
           destruct (mmdc env i) as [e|rc out err]; [left; by eexists|].
           by right.
      * intros Hcase. destruct (rendered !! i) as [p|] eqn:Hp; [|done].
        destruct (Horigin i p Hp) as (_ & Hin & Hr).
        apply Hok in Hr as [(rc & out & err & Hm) Hex].
        destruct Hcase as [Hn|[[e He]|Hf]]; [done|congruence|congruence].
  - intros i p Hp. destruct (Horigin i p Hp) as (-> & Hin & _).
    apply Hinv in Hin as [Hi _]. done.
  - exact Hinv.
Qed.

Lemma C2_recorded_iff_returned_and_artifact_witness :
  renderer_invoked second_write_fails_env 0
  /\ mmdc second_write_fails_env 0 = Completed 0 [] []
  /\ png_exists second_write_fails_env 0 = true
  /\ rendered_at_stop second_write_fails_env !! 0 = Some (png_path 0)
  /\ ~ renderer_invoked second_write_fails_env 2
  /\ rendered_at_stop second_write_fails_env !! 2 = None.
Proof.
  destruct (C2_recorded_iff_returned_and_artifact second_write_fails_env)
    as (_ & Hblocks & _ & Hinv).
  assert (renderer_invoked second_write_fails_env 0) as H0.
  { apply Hinv. split.
    - change (length (finditer (whitepaper second_write_fails_env))) with 3.
      lia.
    - intros j Hj. by replace j with 0 by lia. }
  assert (~ renderer_invoked second_write_fails_env 2) as H2.
  { intros [_ Hall]%Hinv. by specialize (Hall 1 ltac:(lia)). }
  assert (0 < length (finditer (whitepaper second_write_fails_env))
          /\ 2 < length (finditer (whitepaper second_write_fails_env)))
    as [Hl0 Hl2].
  { change (length (finditer (whitepaper second_write_fails_env))) with 3.
    lia. }
  split; [exact H0|]. split; [reflexivity|]. split; [reflexivity|].
  split.
  - apply (Hblocks 0 Hl0). split; [exact H0|]. split; [|reflexivity].
    by exists 0%Z, [], [].
  - split; [exact H2|]. apply (Hblocks 2 Hl2). by left.
Defined.

(** The scratch file is written before the [try]: when that write raises,
    the exception leaves the loop and no block is attempted any more. *)
Lemma C7_scratch_write_not_caught :
  ~ every_block_failure_caught full_disk_env
  /\ snd (main full_disk_env) = Raise (T "[Errno 28] No space left on device")
  /\ invocations (fst (main full_disk_env)) = [].
Proof.
  assert (render_loop full_disk_env 0 (finditer (whitepaper full_disk_env)) ∅
          = ([], Raise (T "[Errno 28] No space left on device"))) as Hl
    by reflexivity.
  split; [|by apply main_loop_raises in Hl].
  intros (ev & rendered & H & _). rewrite Hl in H. discriminate.
Qed.

(** C7 (amended): provided the scratch files can be written, whatever the
    renderer does on a block (raising, timing out, exiting with any status,
    leaving no artifact) stays within that block's iteration: the loop ends
    normally after writing the scratch file of every block and invoking the
    renderer for every block, once each and in document order. *)
Theorem C7_renderer_failures_isolated (env : Env) :
  let blocks := finditer (whitepaper env) in
  (forall i, i < length blocks -> scratch_write env i = None) ->
  exists ev rendered,
    render_loop env 0 blocks ∅ = (ev, Done rendered)
    /\ invocations ev
       = (fun i => mmdc_argv (mmd_path i) (png_path i))
           <$> seq 0 (length blocks)
    /\ files_written ev = imap (fun i m => (mmd_path i, group1 m)) blocks.
Proof.
  intros blocks Hw.
  destruct (render_loop_written env blocks 0 ∅
              ltac:(intros j Hj; apply Hw; lia))
    as (ev & rendered & Hl & _ & Hi & Hf & _).
  by exists ev, rendered.
Qed.

Lemma C7_renderer_failures_isolated_witness :
  (forall i, i < length (finditer (whitepaper mixed_env)) ->
     scratch_write mixed_env i = None)
  /\ exists ev rendered,
       render_loop mixed_env 0 (finditer (whitepaper mixed_env)) ∅
       = (ev, Done rendered)
       /\ invocations ev
          = (fun i => mmdc_argv (mmd_path i) (png_path i))
              <$> seq 0 (length (finditer (whitepaper mixed_env)))
       /\ files_written ev
          = imap (fun i m => (mmd_path i, group1 m))
              (finditer (whitepaper mixed_env)).
Proof.
  split; [reflexivity|].
  apply (C7_renderer_failures_isolated mixed_env). reflexivity.
Defined.

(** The converter exits with status 0 but leaves no document: the size query
    of the success line raises, outside any [try]. *)
Lemma C6_missing_document_after_exit_zero :
  ~ exit_zero_when_converter_exits_zero missing_pdf_env
  /\ claims_success (fst (main missing_pdf_env)) = false.
Proof.
  split; [|reflexivity].
  intros H. specialize (H [] [] eq_refl). discriminate H.
Qed.

(** C6 (amended): when the run reaches the converter (the scratch files
    could be written) and the converter exits with status [rc], then: if
    [rc] is 0 and the size of the final document can be read, the script ends
    with exit status 0 and prints the success line; if [rc] is 0 and the size
    query raises, the script ends with that exception, a non-zero exit status
    and no success line; if [rc] is not 0 it ends through [sys.exit(1)] and
    prints no success line.  The exit status is the same for every behaviour
    of the renderer: two runs over the same document with the same converter
    result and the same answer to the size query have the same exit
    status. *)
Theorem C6_exit_status (env : Env) (rc : Z) (out err : text) :
  let n := length (finditer (whitepaper env)) in
  (forall i, i < n -> scratch_write env i = None) ->
  pandoc env = Completed rc out err ->
  Invoke pandoc_argv ∈ fst (main env)
  /\ (rc = 0%Z -> forall bytes, pdf_getsize env = Size bytes ->
        snd (main env) = Done tt
        /\ exit_status (snd (main env)) = 0%Z
        /\ claims_success (fst (main env)) = true)
  /\ (rc = 0%Z -> forall e, pdf_getsize env = StatRaises e ->
        snd (main env) = Raise e
        /\ exit_status (snd (main env)) <> 0%Z
        /\ claims_success (fst (main env)) = false)
  /\ (rc <> 0%Z ->
        snd (main env) = Exit 1
        /\ exit_status (snd (main env)) <> 0%Z
        /\ claims_success (fst (main env)) = false)
  /\ (forall env',
        whitepaper env' = whitepaper env ->
        pandoc env' = pandoc env ->
        pdf_getsize env' = pdf_getsize env ->
        (forall i, i < n -> scratch_write env' i = None) ->
        exit_status (snd (main env')) = exit_status (snd (main env))).
Proof.
  intros n Hw Hp.
  assert (forall e : Env,
            whitepaper e = whitepaper env -> pandoc e = pandoc env ->
            pdf_getsize e = pdf_getsize env ->
            (forall i, i < n -> scratch_write e i = None) ->
            Invoke pandoc_argv ∈ fst (main e)
            /\ if (rc =? 0)%Z
               then match pdf_getsize env with
                    | Size _ =>
                        snd (main e) = Done tt
                        /\ claims_success (fst (main e)) = true
                    | StatRaises x =>
                        snd (main e) = Raise x
                        /\ claims_success (fst (main e)) = false
                    end
               else snd (main e) = Exit 1
                    /\ claims_success (fst (main e)) = false) as Hrun.
  { intros e Hc He Hs Hwe.
    destruct (render_loop_written e (finditer (whitepaper e)) 0 ∅)
      as (ev & rendered & Hl & _ & _ & _ & Hcs).
    { intros j Hj. apply Hwe. unfold n. rewrite <- Hc. lia. }
    destruct (main_after_loop e ev rendered Hl Hcs) as [Hinv Hend].
    rewrite He, Hp, Hs in Hend. done. }
  destruct (Hrun env eq_refl eq_refl eq_refl Hw) as [Hinv Hend].
  split; [done|]. split; [|split; [|split]].
  - intros -> bytes Hb. simpl in Hend. rewrite Hb in Hend.
    destruct Hend as [-> ->]. done.
  - intros -> e He. simpl in Hend. rewrite He in Hend.
    destruct Hend as [-> ->]. done.
  - intros Hne. apply Z.eqb_neq in Hne. rewrite Hne in Hend.
    destruct Hend as [-> ->]. done.
  - intros env' Hc He Hs Hwe.
    destruct (Hrun env' Hc He Hs Hwe) as [_ Hend'].
    destruct (rc =? 0)%Z; [destruct (pdf_getsize env)|];
      destruct Hend as [-> _], Hend' as [-> _]; done.
Qed.

Lemma C6_exit_status_witness :
  (forall i, i < length (finditer (whitepaper mixed_env)) ->
     scratch_write mixed_env i = None)
  /\ pandoc mixed_env = Completed 0 [] []
  /\ pdf_getsize mixed_env = Size 4096
  /\ snd (main mixed_env) = Done tt
  /\ exit_status (snd (main mixed_env)) = 0%Z
  /\ claims_success (fst (main mixed_env)) = true.
Proof.
  split; [reflexivity|]. split; [reflexivity|]. split; [reflexivity|].
  destruct (C6_exit_status mixed_env 0 [] []) as (_ & Hzero & _);
    [reflexivity.. |].
  exact (Hzero eq_refl 4096 eq_refl).
Defined.

Lemma string_of_uint_no_bang (d : uint) :
  "!"%char ∉ T (NilEmpty.string_of_uint d).
Proof.
  induction d; simpl; [apply not_elem_of_nil|..];
    (apply not_elem_of_cons; split; [discriminate | assumption]).
Qed.

Lemma T_not_elem (c : ascii) (s : string) :
  forallb (fun x => negb (Ascii.eqb x c)) (T s) = true -> c ∉ T s.
Proof.
  induction (T s) as [|x l IH]; simpl; [intros _; apply not_elem_of_nil|].
  intros [Hx Hl]%andb_prop. apply not_elem_of_cons. split; [|by apply IH].
  intros <-. by rewrite Ascii.eqb_refl in Hx.
Qed.

Lemma png_path_no_bang i : "!"%char ∉ png_path i.
Proof.
  unfold png_path, path_join, DIAGRAM_DIR.
  rewrite !not_elem_of_app. repeat split;
    first [apply string_of_uint_no_bang | by apply T_not_elem].
Qed.

Lemma strip_opener (c : ascii) (t : text) :
  strip_prefix (T "![") (c :: t)
  = if Ascii.eqb "!"%char c
    then match t with
         | [] => None
         | d :: t' => if Ascii.eqb "["%char d then Some t' else None
         end
    else None.
Proof. destruct t; reflexivity. Qed.

Lemma image_ref_here_head (c : ascii) (t : text) :
  c <> "!"%char -> image_ref_here (c :: t) = false.
Proof.
  intros Hc. unfold image_ref_here. rewrite strip_opener.
  destruct (Ascii.eqb_spec "!"%char c) as [<-|_]; done.
Qed.

(** Text without an exclamation mark starts no image reference. *)
Lemma count_image_refs_skip (u t : text) :
  "!"%char ∉ u -> count_image_refs (u ++ t) = count_image_refs t.
Proof.
  induction u as [|c u IH]; [done|]. intros [Hc Hu]%not_elem_of_cons.
  cbn [app count_image_refs]. rewrite image_ref_here_head by done.
  by rewrite IH.
Qed.

(** A gap without the opener of an image reference starts none, whatever
    follows it, unless what follows starts with an opening bracket. *)
Lemma count_image_refs_gap (g t : text) :
  ~ occurs (T "![") g -> (forall tl, t <> "["%char :: tl) ->
  count_image_refs (g ++ t) = count_image_refs t.
Proof.
  intros Hg Ht. induction g as [|c g IH]; [done|].
  cbn [app count_image_refs].
  assert (image_ref_here (c :: g ++ t) = false) as ->.
  { unfold image_ref_here. rewrite strip_opener.
    destruct (Ascii.eqb_spec "!"%char c) as [<-|_]; [|done].
    destruct g as [|c' g]; cbn [app].
    - destruct t as [|d t]; [done|].
      destruct (Ascii.eqb_spec "["%char d) as [<-|_]; [|done].
      by destruct (Ht t).
    - destruct (Ascii.eqb_spec "["%char c') as [<-|_]; [|done].
      destruct Hg. by exists [], g. }
  rewrite IH; [done|]. intros (a & b & Hab). apply Hg.
  exists (c :: a), b. by rewrite Hab.
Qed.

(** The image reference written for a block is one image reference. *)
Lemma count_image_refs_ref k (p t : text) :
  "!"%char ∉ p ->
  count_image_refs (image_ref k p ++ t) = S (count_image_refs t).
Proof.
  intros Hp.
  set (alt := T "Diagram " ++ str_of_nat k).
  set (u := "["%char :: alt ++ T "](" ++ p ++ T ")").
  assert (image_ref k p = "!"%char :: u) as ->.
  { unfold image_ref, u, alt. rewrite <- !app_assoc. reflexivity. }
  change (("!"%char :: u) ++ t) with ("!"%char :: (u ++ t)).
  cbn [count_image_refs].
  rewrite count_image_refs_skip.
  2:{ unfold u, alt. apply not_elem_of_cons. split; [discriminate|].
      rewrite !not_elem_of_app. repeat split;
        first [assumption | apply string_of_uint_no_bang
              | by apply T_not_elem]. }
  enough (image_ref_here ("!"%char :: (u ++ t)) = true) as -> by done.
  unfold image_ref_here. rewrite strip_opener, Ascii.eqb_refl.
  unfold u. cbn [app]. rewrite Ascii.eqb_refl. rewrite <- !app_assoc.
  destruct (lazy_until (T "](") (alt ++ T "](" ++ p ++ T ")" ++ t))
    as [[pl t2]|] eqn:El.
  - pose proof (lazy_until_first _ _ _ _ El alt (p ++ T ")" ++ t) eq_refl)
      as Hlen.
    pose proof (lazy_until_Some _ _ _ _ El) as Heq.
    assert (t2 = drop (length pl + length (T "]("))
                   (alt ++ T "](" ++ p ++ T ")" ++ t)) as Ht2.
    { rewrite Heq at 1. by rewrite drop_app_app. }
    destruct (lazy_until (T ")") t2) as [[? ?]|] eqn:E2; [done|].
    apply lazy_until_None in E2. destruct E2.
    exists (drop (length pl + length (T "](")) (alt ++ T "](") ++ p), t.
    rewrite Ht2. rewrite (app_assoc alt), drop_app_le.
    + by rewrite <- !app_assoc.
    + rewrite length_app. lia.
  - apply lazy_until_None in El. destruct El.
    by exists alt, (p ++ T ")" ++ t).
Qed.

Lemma count_image_refs_weave (gs rs : list text) :
  length gs = S (length rs) ->
  (forall g, g ∈ gs -> ~ occurs (T "![") g) ->
  (forall r, r ∈ rs -> exists k p, r = image_ref k p /\ "!"%char ∉ p) ->
  count_image_refs (weave gs rs) = length rs.
Proof.
  revert gs; induction rs as [|r rs IH]; intros [|g gs] Hlen Hg Hr;
    try discriminate.
  - destruct gs; [|discriminate]. simpl.
    rewrite count_image_refs_gap; [done| |done].
    apply Hg. by left.
  - cbn [weave]. destruct (Hr r ltac:(by left)) as (k & p & -> & Hp).
    rewrite count_image_refs_gap.
    + rewrite count_image_refs_ref by done. cbn [length]. f_equal.
      apply IH.
      * simpl in Hlen. lia.
      * intros g' Hg'. apply Hg. by right.
      * intros r' Hr'. apply Hr. by right.
    + apply Hg. by left.
    + by destruct (image_ref_head k p) as [tl ->].
Qed.

(** A document with an image reference of its own outside its blocks: once
    its block is rendered the assembled text holds two image references for
    one block. *)
Lemma C4_image_outside_blocks :
  rendered_after (quiet_env logo_doc) = Some {[ 0 := png_path 0 ]}
  /\ ~ exactly_one_image_ref_per_block {[ 0 := png_path 0 ]} logo_doc.
Proof.
  split; [reflexivity|]. intros H.
  assert (count_image_refs (assemble {[ 0 := png_path 0 ]} logo_doc) = 2)
    as H2 by (by vm_compute).
  rewrite H in H2; [discriminate H2|].
  intros i Hi. change (length (finditer logo_doc)) with 1 in Hi.
  destruct i as [|i]; [by eexists | lia].
Qed.

(** C4 (amended): when the loop has ended and recorded every one of the N
    blocks, the assembled text is the text of the document outside its
    blocks, unchanged, interleaved with exactly N image references, the k-th
    being [![Diagram k](/tmp/mermaid_diagrams/dk.png)] at the place of block
    k, and the pattern matches nowhere in it: extraction finds no block in
    the assembled text.  The image references of the whole text number N
    when the text outside the blocks holds no opener of an image reference;
    references that stand there are kept and add to the count. *)
Theorem C4_all_rendered_no_block_left (env : Env) (ev : list Event)
    (rendered : gmap nat text) :
  let content := whitepaper env in
  let blocks := finditer content in
  let reference k :=
    T "![Diagram " ++ str_of_nat k ++ T "](/tmp/mermaid_diagrams/d"
      ++ str_of_nat k ++ T ".png)" in
  render_loop env 0 blocks ∅ = (ev, Done rendered) ->
  (forall i, i < length blocks -> is_Some (rendered !! i)) ->
  assemble rendered content
  = weave (gaps content) (imap (fun k _ => reference k) blocks)
  /\ length (imap (fun k (_ : Match) => reference k) blocks) = length blocks
  /\ (forall k, decimal_value (str_of_nat k) = Some k)
  /\ ((forall g, g ∈ gaps content -> ~ occurs (T "![") g) ->
      count_image_refs (assemble rendered content) = length blocks)
  /\ finditer (assemble rendered content) = []
  /\ (forall k, ~ matches_at k (assemble rendered content)).
Proof.
  intros content blocks reference Hl Hall.
  assert (forall i, i < length blocks -> rendered !! i = Some (png_path i))
    as Hpaths.
  { intros i Hi. destruct (Hall i Hi) as [p Hp]. rewrite Hp. f_equal.
    destruct (render_loop_paths _ _ _ _ _ _ Hl i p Hp) as [H0|H0]; [|done].
    by rewrite lookup_empty in H0. }
  assert (search (assemble rendered content) = None) as Hnone.
  { unfold assemble, re_sub. apply sub_all_rendered_no_match.
    intros i Hi. exists (png_path i). split.
    - apply Hpaths. unfold blocks, finditer. lia.
    - apply png_path_no_backtick. }
  assert (forall k, reference k = image_ref k (png_path k)) as Href.
  { intros k. unfold reference, image_ref, png_path, path_join, DIAGRAM_DIR.
    by rewrite <- !app_assoc. }
  assert (assemble rendered content
          = weave (gaps content)
              (imap (fun k _ => image_ref k (png_path k)) blocks)) as Hw.
  { rewrite assemble_weave. f_equal. apply imap_ext. intros k m Hk.
    unfold replacement. rewrite Hpaths; [done|].
    by eapply lookup_lt_Some. }
  split; [|split; [|split; [|split; [|split]]]].
  - rewrite Hw. f_equal. apply imap_ext. intros k m _. by rewrite Href.
  - by rewrite length_imap.
  - apply decimal_value_str_of_nat.
  - intros Hgaps. rewrite Hw, count_image_refs_weave.
    + by rewrite length_imap.
    + unfold gaps. by rewrite length_gaps_from, length_imap.
    + done.
    + intros r (k & m & -> & _)%elem_of_lookup_imap.
      exists k, (png_path k). split; [done | apply png_path_no_bang].
  - by apply finditer_nil, search_None.
  - by apply search_None.
Qed.

Lemma C4_all_rendered_no_block_left_witness :
  render_loop (quiet_env three_blocks) 0 (finditer three_blocks) ∅
  = (fst (render_loop (quiet_env three_blocks) 0 (finditer three_blocks) ∅),
     Done {[ 0 := png_path 0; 1 := png_path 1; 2 := png_path 2 ]})
  /\ (forall i, i < length (finditer three_blocks) ->
        is_Some (({[ 0 := png_path 0; 1 := png_path 1; 2 := png_path 2 ]}
                    : gmap nat text) !! i))
  /\ (forall g, g ∈ gaps three_blocks -> ~ occurs (T "![") g)
  /\ assemble {[ 0 := png_path 0; 1 := png_path 1; 2 := png_path 2 ]}
       three_blocks
     = T "a![Diagram 0](/tmp/mermaid_diagrams/d0.png)"
         ++ T "b![Diagram 1](/tmp/mermaid_diagrams/d1.png)"
         ++ T "c![Diagram 2](/tmp/mermaid_diagrams/d2.png)d"
  /\ count_image_refs
       (assemble {[ 0 := png_path 0; 1 := png_path 1; 2 := png_path 2 ]}
          three_blocks) = 3
  /\ finditer (assemble {[ 0 := png_path 0; 1 := png_path 1;
                           2 := png_path 2 ]} three_blocks) = [].
Proof.
  assert (forall i, i < length (finditer three_blocks) ->
            is_Some (({[ 0 := png_path 0; 1 := png_path 1;
                         2 := png_path 2 ]} : gmap nat text) !! i)) as Hall.
  { intros i Hi. change (length (finditer three_blocks)) with 3 in Hi.
    destruct i as [|[|[|i]]]; [by eexists.. | lia]. }
  assert (forall g, g ∈ gaps three_blocks -> ~ occurs (T "![") g) as Hgaps.
  { intros g Hg. apply lazy_until_None.
    change (gaps three_blocks) with [T "a"; T "b"; T "c"; T "d"] in Hg.
    repeat (apply elem_of_cons in Hg as [->|Hg]; [reflexivity|]).
    by apply elem_of_nil in Hg. }
  split; [reflexivity|]. split; [exact Hall|]. split; [exact Hgaps|].
  destruct (C4_all_rendered_no_block_left (quiet_env three_blocks)
              (fst (render_loop (quiet_env three_blocks) 0
                      (finditer three_blocks) ∅))
              {[ 0 := png_path 0; 1 := png_path 1; 2 := png_path 2 ]}
              eq_refl Hall)
    as (_ & _ & _ & Hcount & Hnil & _).
  split; [by vm_compute|].
  split; [exact (Hcount Hgaps) | exact Hnil].
Defined.

(** ** Unterminated and malformed openings *)

Lemma OPEN_fence : OPEN = FENCE_TAG ++ [NL].
Proof. reflexivity. Qed.

(** No closing delimiter starts inside an opening delimiter after its first
    character. *)
Lemma close_not_inside_open j (b tl : text) :
  1 <= j <= 10 -> drop j (OPEN ++ b) <> CLOSE ++ tl.
Proof.
  intros Hj.
  do 11 (destruct j as [|j]; [try lia; vm_compute; discriminate|]).
  lia.
Qed.

Lemma drop_prefix_occurs (p b tl : text) n : drop n b = p ++ tl -> occurs p b.
Proof.
  intros H. exists (take n b), tl. by rewrite <- H, take_drop.
Qed.

(** After an opening delimiter that no closing delimiter follows, no block
    ends later than the three backticks of that opening. *)
Lemma blocks_end_before_unterminated content a b m :
  content = a ++ OPEN ++ b -> ~ occurs CLOSE b ->
  m ∈ finditer content ->
  m_start m < length a /\ m_end m <= length a + 3.
Proof.
  intros Hc Hb Hm.
  destruct (finditer_spans _ _ Hm) as (He & _ & Hg & Hd & _).
  assert (length OPEN = 11) as HO by done.
  assert (length CLOSE = 3) as HC by done.
  assert (m_end m = m_start m + 11 + length (group1 m) + 3) as Hend.
  { rewrite He, Hg, !length_app. lia. }
  enough (m_end m <= length a + 3) by lia.
  destruct (decide (m_end m <= length a + 3)) as [|Hgt]; [done|exfalso].
  assert (drop (m_start m + 11 + length (group1 m)) content
          = CLOSE ++ drop (m_end m) content) as Hq.
  { rewrite <- Nat.add_assoc, <- drop_drop, Hd, Hg.
    rewrite <- HO, <- length_app.
    by rewrite (app_assoc OPEN), <- app_assoc, drop_app_length. }
  rewrite Hc in Hq at 1. rewrite drop_app_ge in Hq by lia.
  destruct (decide (m_start m + 11 + length (group1 m) - length a <= 10))
    as [Hin|Hout].
  - by eapply (close_not_inside_open _ b); [|exact Hq]; lia.
  - rewrite drop_app_ge in Hq by lia. by apply drop_prefix_occurs in Hq.
Qed.

(** What follows the end of every block is kept at the end of the assembled
    text. *)
Lemma sub_keeps_tail (rendered : gmap nat text) pos s :
  forall pfx c e, length pfx = pos -> pos <= e ->
    (forall m, m ∈ finditer_from pos s -> m_end m <= e) ->
    drop e (pfx ++ s)
      `suffix_of` fst (re_sub_from (replace_block rendered) pos s c).
Proof.
  revert pos s. apply (scan_ind (fun pos s => forall pfx c e,
    length pfx = pos -> pos <= e ->
    (forall m, m ∈ finditer_from pos s -> m_end m <= e) ->
    drop e (pfx ++ s)
      `suffix_of` fst (re_sub_from (replace_block rendered) pos s c))).
  - intros pos s E pfx c e Hp He _. rewrite re_sub_from_nomatch by done.
    rewrite drop_app_ge by lia. apply suffix_drop.
  - intros pos s pre payload rest E IH pfx c e Hp He Hall.
    rewrite (finditer_from_match _ _ _ _ _ E) in Hall.
    rewrite (re_sub_from_match _ _ _ _ _ _ _ E). cbv zeta. cbn [fst].
    pose proof (search_Some _ _ _ _ E) as Hs.
    do 2 apply suffix_app_r.
    specialize (IH (pfx ++ pre ++ OPEN ++ payload ++ CLOSE)
                  (snd (replace_block rendered (match_at pos pre payload) c))
                  e).
    replace ((pfx ++ pre ++ OPEN ++ payload ++ CLOSE) ++ rest)
      with (pfx ++ s) in IH by (rewrite Hs; by rewrite <- !app_assoc).
    apply IH.
    + rewrite m_end_match_at, length_app. lia.
    + apply Hall. by left.
    + intros m Hm. apply Hall. by right.
Qed.

Lemma assemble_keeps_tail rendered content e :
  (forall m, m ∈ finditer content -> m_end m <= e) ->
  drop e content `suffix_of` assemble rendered content.
Proof.
  intros H. apply (sub_keeps_tail rendered 0 content [] 0 e eq_refl); [lia|].
  exact H.
Qed.

(** Two openings and no closing fence: lazy matching closes the first block
    on the backticks of the second opening, and once that block is rendered
    the second opening has lost its backticks. *)
Lemma C10_backticks_taken_as_closing :
  ~ unterminated_opening_kept {[ 0 := png_path 0 ]}
      (OPEN ++ T "A" ++ OPEN ++ T "B").
Proof.
  intros H. specialize (H (OPEN ++ T "A") (T "B")).
  assert (~ occurs CLOSE (T "B")) as Hb by (by apply lazy_until_None).
  specialize (H ltac:(by rewrite <- !app_assoc) Hb).
  revert H. by apply lazy_until_None.
Qed.

(** Blocks without a recorded artifact are put back as they are. *)
Lemma sub_unrecorded_identity (rendered : gmap nat text) pos s c :
  (forall k, k < length (finditer_from pos s) -> rendered !! (c + k) = None) ->
  fst (re_sub_from (replace_block rendered) pos s c) = s.
Proof.
  intros Hnone.
  rewrite (re_sub_from_weave _ pos s (replicate pos NL) c)
    by apply length_replicate.
  rewrite run_repl_replace_block. cbn [fst].
  etrans; [|symmetry; apply (content_weave_from pos s (replicate pos NL));
            apply length_replicate].
  f_equal. rewrite <- imap_const. apply imap_ext. intros k m Hk.
  unfold replacement. rewrite Hnone; [done|]. by eapply lookup_lt_Some.
Qed.

(** What follows offset [e] is kept at the end of the assembled text when
    every block that ends after [e] has no recorded artifact. *)
Lemma sub_keeps_tail_unless (rendered : gmap nat text) pos s :
  forall pfx c e, length pfx = pos -> pos <= e ->
    (forall k m, finditer_from pos s !! k = Some m -> e < m_end m ->
       rendered !! (c + k) = None) ->
    drop e (pfx ++ s)
      `suffix_of` fst (re_sub_from (replace_block rendered) pos s c).
Proof.
  revert pos s. apply (scan_ind (fun pos s => forall pfx c e,
    length pfx = pos -> pos <= e ->
    (forall k m, finditer_from pos s !! k = Some m -> e < m_end m ->
       rendered !! (c + k) = None) ->
    drop e (pfx ++ s)
      `suffix_of` fst (re_sub_from (replace_block rendered) pos s c))).
  - intros pos s E pfx c e Hp He _. rewrite re_sub_from_nomatch by done.
    rewrite drop_app_ge by lia. apply suffix_drop.
  - intros pos s pre payload rest E IH pfx c e Hp He Hall.
    pose proof (search_Some _ _ _ _ E) as Hs.
    assert ((pfx ++ pre ++ OPEN ++ payload ++ CLOSE) ++ rest = pfx ++ s)
      as Hcat by (rewrite Hs; by rewrite <- !app_assoc).
    assert (length (pfx ++ pre ++ OPEN ++ payload ++ CLOSE)
            = m_end (match_at pos pre payload)) as Hlen
      by (rewrite m_end_match_at, length_app; lia).
    destruct (decide (m_end (match_at pos pre payload) <= e)) as [Hle|Hgt].
    + rewrite (re_sub_from_match _ _ _ _ _ _ _ E). cbv zeta. cbn [fst].
      do 2 apply suffix_app_r. rewrite <- Hcat. apply IH; [done|done|].
      intros k m Hk Hm. rewrite replace_block_snd.
      replace (S c + k) with (c + S k) by lia. apply (Hall (S k) m); [|done].
      by rewrite (finditer_from_match _ _ _ _ _ E).
    + rewrite sub_unrecorded_identity.
      { rewrite drop_app_ge by lia. apply suffix_drop. }
      intros k Hk. destruct (lookup_lt_is_Some_2 _ _ Hk) as [m Hm].
      apply (Hall k m Hm).
      rewrite (finditer_from_match _ _ _ _ _ E) in Hm.
      destruct k as [|k]; [injection Hm as <-; lia|]. simpl in Hm.
      destruct (finditer_from_spans _ rest _ Hlen m
                  ltac:(by eapply list_elem_of_lookup_2))
        as (Hstart & Hend & _).
      lia.
Qed.

(** The assembled text around the replacement of one block. *)
Lemma sub_around_block (rendered : gmap nat text) pos s :
  forall pfx c k m, length pfx = pos ->
    finditer_from pos s !! k = Some m ->
    exists before,
      fst (re_sub_from (replace_block rendered) pos s c)
      = before ++ replacement rendered (c + k) m
          ++ fst (re_sub_from (replace_block rendered) (m_end m)
                    (drop (m_end m) (pfx ++ s)) (c + S k)).
Proof.
  revert pos s. apply (scan_ind (fun pos s => forall pfx c k m,
    length pfx = pos -> finditer_from pos s !! k = Some m ->
    exists before,
      fst (re_sub_from (replace_block rendered) pos s c)
      = before ++ replacement rendered (c + k) m
          ++ fst (re_sub_from (replace_block rendered) (m_end m)
                    (drop (m_end m) (pfx ++ s)) (c + S k)))).
  - intros pos s E pfx c k m _ Hk.
    by rewrite finditer_from_nomatch in Hk.
  - intros pos s pre payload rest E IH pfx c k m Hp Hk.
    pose proof (search_Some _ _ _ _ E) as Hs.
    assert ((pfx ++ pre ++ OPEN ++ payload ++ CLOSE) ++ rest = pfx ++ s)
      as Hcat by (rewrite Hs; by rewrite <- !app_assoc).
    assert (length (pfx ++ pre ++ OPEN ++ payload ++ CLOSE)
            = m_end (match_at pos pre payload)) as Hlen
      by (rewrite m_end_match_at, length_app; lia).
    rewrite (finditer_from_match _ _ _ _ _ E) in Hk.
    rewrite (re_sub_from_match _ _ _ _ _ _ _ E). cbv zeta. cbn [fst].
    rewrite replace_block_snd, replace_block_fst.
    destruct k as [|k].
    + injection Hk as <-. exists pre.
      rewrite <- Hcat, <- Hlen, drop_app_length.
      by rewrite Nat.add_0_r, Nat.add_1_r.
    + simpl in Hk.
      destruct (IH (pfx ++ pre ++ OPEN ++ payload ++ CLOSE) (S c) k m Hlen Hk)
        as [before Hb].
      exists (pre ++ replacement rendered c (match_at pos pre payload)
                ++ before).
      rewrite Hb, Hcat. rewrite <- !app_assoc.
      by replace (S c + k) with (c + S k) by lia;
        replace (S c + S k) with (c + S (S k)) by lia.
Qed.

(** Nothing matches from inside or after an opening delimiter that no
    closing delimiter follows. *)
Lemma search_unterminated_tail (b : text) j :
  ~ occurs CLOSE b -> search (drop j (OPEN ++ b)) = None.
Proof.
  intros Hb. apply search_None. intros k (body & Hd & (a' & b' & Hab)).
  apply Hb.
  apply (drop_prefix_occurs CLOSE b b'
           (j + k + length OPEN + length a' - length OPEN)).
  assert (drop (length a') (drop (length OPEN) (drop k (drop j (OPEN ++ b))))
          = CLOSE ++ b') as H.
  { rewrite Hd, drop_app_length, Hab. by rewrite drop_app_length. }
  rewrite !drop_drop in H. rewrite drop_app_ge in H by lia.
  rewrite <- H. f_equal. lia.
Qed.

Lemma image_ref_last k p : exists front, image_ref k p = front ++ [")"%char].
Proof.
  exists (T "![Diagram " ++ str_of_nat k ++ T "](" ++ p).
  unfold image_ref. by rewrite <- !app_assoc.
Qed.

Lemma take_open_last j (b : text) :
  1 <= j <= 3 -> exists front, take j (OPEN ++ b) = front ++ [BACKTICK].
Proof.
  intros Hj. destruct j as [|[|[|[|j]]]]; try lia.
  - by exists [].
  - by exists [BACKTICK].
  - by exists [BACKTICK; BACKTICK].
Qed.

(** A rendered block that ends on the backticks of an unterminated opening
    takes them away. *)
Lemma unterminated_broken_by_rendered (rendered : gmap nat text) content a b
    k m p :
  content = a ++ OPEN ++ b -> ~ occurs CLOSE b ->
  finditer content !! k = Some m -> length a < m_end m ->
  rendered !! k = Some p ->
  ~ OPEN ++ b `suffix_of` assemble rendered content.
Proof.
  intros Hc Hb Hk Hend Hp [w Hw].
  destruct (blocks_end_before_unterminated content a b m Hc Hb
              ltac:(by eapply list_elem_of_lookup_2)) as [_ Hle].
  destruct (sub_around_block rendered 0 content [] 0 k m eq_refl Hk)
    as [before Hout].
  change (fst (re_sub_from (replace_block rendered) 0 content 0))
    with (assemble rendered content) in Hout.
  assert (drop (m_end m) content = drop (m_end m - length a) (OPEN ++ b))
    as Htail by (rewrite Hc at 1; by rewrite drop_app_ge by lia).
  cbn [app] in Hout. rewrite !Nat.add_0_l, Htail in Hout.
  rewrite re_sub_from_nomatch in Hout by (by apply search_unterminated_tail).
  cbn [fst] in Hout. unfold replacement in Hout. rewrite Hp in Hout.
  destruct (image_ref_last k p) as [front Hfront].
  destruct (take_open_last (m_end m - length a) b ltac:(lia))
    as [ticks Hticks].
  rewrite Hw in Hout.
  rewrite <- (take_drop (m_end m - length a) (OPEN ++ b)) in Hout at 1.
  rewrite Hticks, Hfront in Hout. rewrite !app_assoc in Hout.
  apply app_inv_tail in Hout.
  apply (f_equal last) in Hout. rewrite !last_snoc in Hout.
  discriminate Hout.
Qed.

(** C10 (amended): for an opening delimiter that no closing delimiter
    follows, every block starts before it and ends at the latest on its
    three backticks; the text after those backticks is always kept at the end
    of the assembled text, and the whole unterminated text, backticks
    included, is kept there exactly when no block with a recorded artifact
    ends on those backticks.  A fence whose language tag is not directly
    followed by a newline never starts a block.  Extraction and assembly are
    total functions: nothing is raised. *)
Theorem C10_unterminated_opening (rendered : gmap nat text) (content : text) :
  (forall a b, content = a ++ OPEN ++ b -> ~ occurs CLOSE b ->
     (forall m, m ∈ finditer content ->
        m_start m < length a /\ m_end m <= length a + 3)
     /\ drop (length CLOSE) OPEN ++ b `suffix_of` assemble rendered content
     /\ (OPEN ++ b `suffix_of` assemble rendered content
         <-> forall k m, finditer content !! k = Some m ->
               length a < m_end m -> rendered !! k = None))
  /\ (forall a r, content = a ++ FENCE_TAG ++ r ->
        (forall r', r <> NL :: r') ->
        forall m, m ∈ finditer content -> m_start m <> length a).
Proof.
  split.
  - intros a b Hc Hb. split; [|split].
    + intros m Hm. by eapply blocks_end_before_unterminated.
    + replace (drop (length CLOSE) OPEN ++ b)
        with (drop (length a + 3) content).
      { apply assemble_keeps_tail. intros m Hm.
        by eapply blocks_end_before_unterminated. }
      rewrite Hc, drop_app_ge by lia.
      replace (length a + 3 - length a) with 3 by lia. reflexivity.
    + split.
      * intros Hsuf k m Hk Hend.
        destruct (rendered !! k) as [p|] eqn:Hp; [|done].
        by destruct (unterminated_broken_by_rendered rendered content a b
                       k m p Hc Hb Hk Hend Hp).
      * intros Hall.
        replace (OPEN ++ b) with (drop (length a) content)
          by (by rewrite Hc, drop_app_length).
        apply (sub_keeps_tail_unless rendered 0 content [] 0 (length a)
                 eq_refl); [lia|].
        intros k m Hk Hend. by apply (Hall k m).
  - intros a r Hc Hr m Hm Hstart.
    destruct (finditer_spans _ _ Hm) as (_ & _ & Hg & Hd & _).
    rewrite Hstart, Hc, drop_app_length, Hg, OPEN_fence in Hd.
    rewrite <- !app_assoc in Hd. apply app_inv_head in Hd.
    by apply (Hr (group1 m ++ CLOSE ++ drop (m_end m) (a ++ FENCE_TAG ++ r))).
Qed.

Lemma C10_unterminated_opening_witness :
  (OPEN ++ T "A" ++ OPEN ++ T "B" = (OPEN ++ T "A") ++ OPEN ++ T "B"
   /\ ~ occurs CLOSE (T "B")
   /\ (forall k m, finditer (OPEN ++ T "A" ++ OPEN ++ T "B") !! k = Some m ->
         length (OPEN ++ T "A") < m_end m ->
         ({[ 1 := png_path 1 ]} : gmap nat text) !! k = None)
   /\ OPEN ++ T "B"
        `suffix_of` assemble {[ 1 := png_path 1 ]}
                      (OPEN ++ T "A" ++ OPEN ++ T "B"))
  /\ (T "```mermaid graph" = [] ++ FENCE_TAG ++ T " graph"
      /\ (forall r', T " graph" <> NL :: r')
      /\ forall m, m ∈ finditer (T "```mermaid graph") -> m_start m <> 0).
Proof.
  assert (OPEN ++ T "A" ++ OPEN ++ T "B" = (OPEN ++ T "A") ++ OPEN ++ T "B")
    as Hc by reflexivity.
  assert (~ occurs CLOSE (T "B")) as Hb by (by apply lazy_until_None).
  assert (forall k m,
            finditer (OPEN ++ T "A" ++ OPEN ++ T "B") !! k = Some m ->
            length (OPEN ++ T "A") < m_end m ->
            ({[ 1 := png_path 1 ]} : gmap nat text) !! k = None) as Hall.
  { intros k m Hk _. destruct k as [|k]; [reflexivity|].
    change (finditer (OPEN ++ T "A" ++ OPEN ++ T "B"))
      with [ {| m_start := 0; m_end := 15;
                group0 := OPEN ++ T "A" ++ CLOSE; group1 := T "A" |} ] in Hk.
    discriminate Hk. }
  split.
  - split; [exact Hc|]. split; [exact Hb|]. split; [exact Hall|].
    destruct (C10_unterminated_opening {[ 1 := png_path 1 ]}
                (OPEN ++ T "A" ++ OPEN ++ T "B")) as [HA _].
    destruct (HA _ _ Hc Hb) as (_ & _ & Hkeep). apply Hkeep. exact Hall.
  - split; [reflexivity|]. split; [discriminate|].
    destruct (C10_unterminated_opening ∅ (T "```mermaid graph")) as [_ HB].
    apply (HB [] (T " graph")); [reflexivity | discriminate].
Defined.

(** ** Further properties of extraction and assembly *)

Lemma matches_at_shift (pfx s : text) k :
  length pfx <= k -> matches_at k (pfx ++ s) -> matches_at (k - length pfx) s.
Proof.
  intros Hk (body & Hd & Hocc). exists body. split; [|done].
  by rewrite drop_app_ge in Hd.
Qed.

Lemma finditer_from_covers pos s :
  forall pfx k, length pfx = pos -> pos <= k -> matches_at k (pfx ++ s) ->
    exists m, m ∈ finditer_from pos s /\ m_start m <= k < m_end m.
Proof.
  revert pos s. apply (scan_ind (fun pos s => forall pfx k,
    length pfx = pos -> pos <= k -> matches_at k (pfx ++ s) ->
    exists m, m ∈ finditer_from pos s /\ m_start m <= k < m_end m)).
  - intros pos s E pfx k Hp Hk Hm. apply matches_at_shift in Hm; [|lia].
    by destruct (proj1 (search_None s) E _ Hm).
  - intros pos s pre payload rest E IH pfx k Hp Hk Hm.
    rewrite (finditer_from_match _ _ _ _ _ E).
    pose proof (search_Some _ _ _ _ E) as Hs.
    destruct (decide (k < m_end (match_at pos pre payload))) as [Hin|Hout].
    + exists (match_at pos pre payload). split; [by left|]. split; [|done].
      cbn [match_at m_start].
      destruct (decide (pos + length pre <= k)) as [|Hlt]; [done|exfalso].
      apply matches_at_shift in Hm; [|lia].
      destruct (search_leftmost _ _ _ _ E) as [Hleft _].
      apply (Hleft (k - length pfx)); [lia | done].
    + destruct (IH (pfx ++ pre ++ OPEN ++ payload ++ CLOSE) k) as (m & Hin & Hr).
      * rewrite m_end_match_at, length_app. lia.
      * lia.
      * replace ((pfx ++ pre ++ OPEN ++ payload ++ CLOSE) ++ rest)
          with (pfx ++ s) by (rewrite Hs; by rewrite <- !app_assoc).
        done.
      * exists m. split; [by right | done].
Qed.

(** X1: extraction misses nothing.  Every offset of the document at which
    the pattern matches lies within the span of an extracted block, and every
    extracted block starts at an offset at which the pattern matches. *)
Theorem finditer_complete (content : text) :
  (forall k, matches_at k content ->
     exists m, m ∈ finditer content /\ m_start m <= k < m_end m)
  /\ (forall m, m ∈ finditer content -> matches_at (m_start m) content).
Proof.
  split.
  - intros k Hk.
    apply (finditer_from_covers 0 content [] k eq_refl); [lia | done].
  - intros m Hm. destruct (finditer_spans _ _ Hm) as (_ & _ & Hg & Hd & _).
    exists (group1 m ++ CLOSE ++ drop (m_end m) content). split.
    + rewrite Hd, Hg. by rewrite <- !app_assoc.
    + by exists (group1 m), (drop (m_end m) content).
Qed.

Lemma finditer_complete_witness :
  matches_at 17 three_blocks
  /\ exists m, m ∈ finditer three_blocks /\ m_start m <= 17 < m_end m.
Proof.
  assert (matches_at 17 three_blocks) as H.
  { exists (T "B" ++ CLOSE ++ T "c" ++ OPEN ++ T "C" ++ CLOSE ++ T "d").
    split; [reflexivity|]. by exists (T "B"), (T "c" ++ OPEN ++ T "C" ++ CLOSE ++ T "d"). }
  split; [exact H|].
  destruct (finditer_complete three_blocks) as [Hc _]. exact (Hc 17 H).
Defined.

(** X2: a block spans at least the two delimiters, fourteen characters, and
    blocks do not overlap: a document holds at most a fourteenth of its
    length in blocks. *)
Theorem finditer_count_bound (content : text) :
  14 * length (finditer content) <= length content.
Proof.
  enough (forall pos s, 14 * length (finditer_from pos s) <= length s) as H
    by apply H.
  apply (scan_ind (fun pos s => 14 * length (finditer_from pos s) <= length s)).
  - intros pos s E. rewrite finditer_from_nomatch by done. simpl. lia.
  - intros pos s pre payload rest E IH.
    rewrite (finditer_from_match _ _ _ _ _ E). cbn [length].
    rewrite (search_Some _ _ _ _ E) at 1. rewrite !length_app.
    assert (length OPEN = 11) by done. assert (length CLOSE = 3) by done.
    lia.
Qed.

(** X3: [re.sub] with any callable is the fold of that callable over the
    matches of [re.finditer], in order, its results woven with the text
    between the matches; the state it leaves is the state of the fold. *)
Theorem re_sub_is_fold_over_finditer {St : Type}
    (repl : Match -> St -> text * St) (content : text) (st : St) :
  re_sub repl content st
  = (weave (gaps content) (fst (run_repl repl (finditer content) st)),
     snd (run_repl repl (finditer content) st)).
Proof. apply (re_sub_from_weave repl 0 content [] st eq_refl). Qed.

(** X4: when none of the blocks has a recorded artifact (every render
    failed), the assembled text is the document itself, whatever the mapping
    holds for other indices. *)
Theorem assemble_nothing_recorded (rendered : gmap nat text) (content : text) :
  (forall i, i < length (finditer content) -> rendered !! i = None) ->
  assemble rendered content = content.
Proof.
  intros Hnone. rewrite assemble_weave.
  rewrite (content_weave_from 0 content [] eq_refl) at 3.
  fold (finditer content). fold (gaps content). f_equal.
  rewrite <- imap_const. apply imap_ext. intros i m Hi.
  unfold replacement. rewrite Hnone; [done|]. by eapply lookup_lt_Some.
Qed.

Lemma assemble_nothing_recorded_witness :
  (forall i, i < length (finditer three_blocks) ->
     ({[ 3 := png_path 3 ]} : gmap nat text) !! i = None)
  /\ assemble {[ 3 := png_path 3 ]} three_blocks = three_blocks.
Proof.
  assert (forall i, i < length (finditer three_blocks) ->
            ({[ 3 := png_path 3 ]} : gmap nat text) !! i = None) as H.
  { intros i Hi. change (length (finditer three_blocks)) with 3 in Hi.
    destruct i as [|[|[|i]]]; [done.. | lia]. }
  split; [exact H|]. by apply assemble_nothing_recorded.
Defined.

(** X5: assembly reads the mapping at the indices of the blocks only: two
    mappings that agree below the number of blocks give the same text. *)
Theorem assemble_reads_block_indices (r1 r2 : gmap nat text) (content : text) :
  (forall i, i < length (finditer content) -> r1 !! i = r2 !! i) ->
  assemble r1 content = assemble r2 content.
Proof.
  intros Hagree. rewrite !assemble_weave. f_equal.
  apply imap_ext. intros i m Hi. unfold replacement.
  rewrite Hagree; [done|]. by eapply lookup_lt_Some.
Qed.

Lemma assemble_reads_block_indices_witness :
  (forall i, i < length (finditer three_blocks) ->
     ({[ 1 := png_path 1; 7 := png_path 7 ]} : gmap nat text) !! i
     = ({[ 1 := png_path 1 ]} : gmap nat text) !! i)
  /\ assemble {[ 1 := png_path 1; 7 := png_path 7 ]} three_blocks
     = assemble {[ 1 := png_path 1 ]} three_blocks.
Proof.
  assert (forall i, i < length (finditer three_blocks) ->
            ({[ 1 := png_path 1; 7 := png_path 7 ]} : gmap nat text) !! i
            = ({[ 1 := png_path 1 ]} : gmap nat text) !! i) as H.
  { intros i Hi. change (length (finditer three_blocks)) with 3 in Hi.
    destruct i as [|[|[|i]]]; [done.. | lia]. }
  split; [exact H|]. by apply assemble_reads_block_indices.
Defined.

(** ** Further properties of the rendering loop and of the script *)

(** X6: the scratch files are freshly named.  Two blocks never share a
    payload file or an artifact file, no payload file is an artifact file,
    and neither is the renderer configuration or the assembled document. *)
Theorem scratch_paths_distinct (i j : nat) :
  (mmd_path i = mmd_path j -> i = j)
  /\ (png_path i = png_path j -> i = j)
  /\ mmd_path i <> png_path j
  /\ mmd_path i <> PUPPETEER_CFG /\ png_path i <> PUPPETEER_CFG
  /\ mmd_path i <> WORK_MD /\ png_path i <> WORK_MD.
Proof.
  unfold mmd_path, png_path, path_join.
  split; [|split; [|split]].
  - intros H. do 3 apply app_inv_head in H.
    apply app_inj_2 in H as [H _]; [|done]. by apply str_of_nat_inj.
  - intros H. do 3 apply app_inv_head in H.
    apply app_inj_2 in H as [H _]; [|done]. by apply str_of_nat_inj.
  - intros H. do 3 apply app_inv_head in H.
    by apply app_inj_2 in H as [_ H].
  - repeat split; discriminate.
Qed.

Lemma scratch_paths_distinct_witness :
  mmd_path 3 = mmd_path 3 /\ 3 = 3.
Proof.
  split; [reflexivity|].
  destruct (scratch_paths_distinct 3 3) as [H _]. by apply H.
Defined.

Lemma render_loop_size env blocks :
  forall i (rendered0 rendered : gmap nat text) ev,
    render_loop env i blocks rendered0 = (ev, Done rendered) ->
    (forall j, i <= j -> rendered0 !! j = None) ->
    size rendered
    = size rendered0
      + length (List.filter (render_ok env) (seq i (length blocks))).
Proof.
  induction blocks as [|m blocks IH]; intros i rendered0 rendered ev Hl Hfresh.
  - injection Hl as _ <-. simpl. lia.
  - cbn [render_loop] in Hl.
    destruct (scratch_write env i) as [e|] eqn:Hw.
    + by rewrite (render_block_unwritten _ _ _ _ _ Hw) in Hl.
    + destruct (render_block_written env i m rendered0 Hw) as (ev1 & Hb & _).
      rewrite Hb in Hl. unfold mbind, Script_bind in Hl.
      destruct (render_loop env (S i) blocks _) as [ev2 r2] eqn:Hl2.
      injection Hl as _ ->.
      rewrite (IH _ _ _ _ Hl2).
      * cbn [length seq List.filter].
        destruct (render_ok env i); cbn [length].
        -- rewrite map_size_insert_None by (apply Hfresh; lia). lia.
        -- lia.
      * intros j Hj. destruct (render_ok env i); [|apply Hfresh; lia].
        rewrite lookup_insert_ne by lia. apply Hfresh. lia.
Qed.

(** X7: the count of the summary line.  When the loop ends, the number of
    recorded blocks is the number of blocks whose renderer invocation
    returned and left an artifact; it never exceeds the number of blocks
    found. *)
Theorem rendered_count (env : Env) (ev : list Event)
    (rendered : gmap nat text) :
  let blocks := finditer (whitepaper env) in
  render_loop env 0 blocks ∅ = (ev, Done rendered) ->
  size rendered
  = length (List.filter (render_ok env) (seq 0 (length blocks)))
  /\ size rendered <= length blocks.
Proof.
  intros blocks Hl.
  pose proof (render_loop_size env blocks 0 ∅ rendered ev Hl
                ltac:(intros; apply lookup_empty)) as Hs.
  rewrite map_size_empty in Hs. simpl in Hs. split; [done|].
  rewrite Hs. etrans; [apply List.filter_length_le|]. by rewrite length_seq.
Qed.

Lemma rendered_count_witness :
  render_loop mixed_env 0 (finditer (whitepaper mixed_env)) ∅
  = (fst (render_loop mixed_env 0 (finditer (whitepaper mixed_env)) ∅),
     Done {[ 0 := png_path 0; 2 := png_path 2 ]})
  /\ size ({[ 0 := png_path 0; 2 := png_path 2 ]} : gmap nat text)
     = length (List.filter (render_ok mixed_env)
                 (seq 0 (length (finditer (whitepaper mixed_env)))))
  /\ size ({[ 0 := png_path 0; 2 := png_path 2 ]} : gmap nat text)
     <= length (finditer (whitepaper mixed_env)).
Proof.
  split; [reflexivity|].
  apply (rendered_count mixed_env
           (fst (render_loop mixed_env 0 (finditer (whitepaper mixed_env)) ∅))).
  reflexivity.
Defined.

(** X8: a complete run.  When every scratch file can be written, the script
    starts N + 1 processes, the renderer once per block in document order and
    then the converter, whatever the renderer and the converter do; the files
    it writes are the renderer configuration, the payload of every block and
    last the assembled text, which is what the converter is given. *)
Theorem main_processes_and_files (env : Env) :
  let blocks := finditer (whitepaper env) in
  (forall i, i < length blocks -> scratch_write env i = None) ->
  exists rendered,
    rendered_after env = Some rendered
    /\ invocations (fst (main env))
       = ((fun i => mmdc_argv (mmd_path i) (png_path i))
            <$> seq 0 (length blocks)) ++ [pandoc_argv]
    /\ files_written (fst (main env))
       = (PUPPETEER_CFG, puppeteer_json)
           :: imap (fun i m => (mmd_path i, group1 m)) blocks
           ++ [(WORK_MD, assemble rendered (whitepaper env))].
Proof.
  intros blocks Hw.
  destruct (render_loop_written env blocks 0 ∅
              ltac:(intros j Hj; apply Hw; lia))
    as (ev & rendered & Hl & _ & Hi & Hf & _).
  exists rendered. split; [unfold rendered_after; fold blocks; by rewrite Hl|].
  unfold main. cbv zeta. fold blocks.
  cbn [mbind Script_bind emit print fst snd].
  rewrite Hl. cbn [mbind Script_bind emit print fst snd subprocess_run].
  destruct (pandoc env) as [e|rc out err];
    [|destruct (rc =? 0)%Z; [destruct (pdf_getsize env) as [e|bytes]|]];
    cbn [mbind Script_bind emit print sys_exit os_path_getsize fst snd app].
  all: unfold invocations, files_written; cbn [omap list_omap].
  all: rewrite !omap_app; cbn [omap list_omap].
  all: fold (invocations ev); fold (files_written ev).
  all: by rewrite Hi, Hf.
Qed.

Lemma main_processes_and_files_witness :
  (forall i, i < length (finditer (whitepaper mixed_env)) ->
     scratch_write mixed_env i = None)
  /\ exists rendered,
       rendered_after mixed_env = Some rendered
       /\ invocations (fst (main mixed_env))
          = ((fun i => mmdc_argv (mmd_path i) (png_path i))
               <$> seq 0 (length (finditer (whitepaper mixed_env))))
            ++ [pandoc_argv]
       /\ files_written (fst (main mixed_env))
          = (PUPPETEER_CFG, puppeteer_json)
              :: imap (fun i m => (mmd_path i, group1 m))
                   (finditer (whitepaper mixed_env))
              ++ [(WORK_MD, assemble rendered (whitepaper mixed_env))].
Proof.
  split; [reflexivity|].
  apply (main_processes_and_files mixed_env). reflexivity.
Defined.

Lemma render_loop_stops env blocks :
  forall i (rendered0 : gmap nat text) k m e,
    blocks !! k = Some m ->
    (forall j, i <= j < i + k -> scratch_write env j = None) ->
    scratch_write env (i + k) = Some e ->
    exists ev,
      render_loop env i blocks rendered0 = (ev, Raise e)
      /\ invocations ev
         = (fun j => mmdc_argv (mmd_path j) (png_path j)) <$> seq i k
      /\ files_written ev
         = imap (fun n b => (mmd_path (i + n), group1 b)) (take k blocks)
      /\ claims_success ev = false.
Proof.
  induction blocks as [|m0 blocks IH]; intros i rendered0 k m e Hk Hw He;
    [done|].
  destruct k as [|k].
  - rewrite Nat.add_0_r in He. exists []. split; [|done].
    cbn [render_loop]. by rewrite (render_block_unwritten _ _ _ _ _ He).
  - destruct (render_block_written env i m0 rendered0 (Hw i ltac:(lia)))
      as (ev1 & Hb & Hi1 & Hf1 & Hc1).
    destruct (IH (S i)
                (if render_ok env i then <[i := png_path i]> rendered0
                 else rendered0) k m e Hk
                ltac:(intros j Hj; apply Hw; lia)
                ltac:(by rewrite <- He; f_equal; lia))
      as (ev2 & Hl & Hi2 & Hf2 & Hc2).
    exists (ev1 ++ ev2). split; [|split; [|split]].
    + cbn [render_loop]. rewrite Hb. unfold mbind, Script_bind.
      by rewrite Hl.
    + by rewrite invocations_app, Hi1, Hi2.
    + rewrite files_written_app, Hf1, Hf2. cbn [take imap]. simpl.
      rewrite Nat.add_0_r. f_equal. apply imap_ext. intros n x _. simpl.
      by rewrite Nat.add_succ_r.
    + by rewrite claims_success_app, Hc1, Hc2.
Qed.

(** X9: a scratch file that cannot be written ends the run.  If block [k] is
    the first whose payload file cannot be written, the script ends with the
    exception of that write and exit status 1: the renderer has run for the
    blocks before [k] only, the converter is not started, the assembled text
    is not written and no success line is printed. *)
Theorem main_scratch_write_fails (env : Env) (k : nat) (e : text) :
  let blocks := finditer (whitepaper env) in
  k < length blocks ->
  (forall j, j < k -> scratch_write env j = None) ->
  scratch_write env k = Some e ->
  snd (main env) = Raise e
  /\ exit_status (snd (main env)) = 1%Z
  /\ invocations (fst (main env))
     = (fun j => mmdc_argv (mmd_path j) (png_path j)) <$> seq 0 k
  /\ files_written (fst (main env))
     = (PUPPETEER_CFG, puppeteer_json)
         :: imap (fun n b => (mmd_path n, group1 b)) (take k blocks)
  /\ claims_success (fst (main env)) = false.
Proof.
  intros blocks Hk Hw He.
  destruct (lookup_lt_is_Some_2 blocks k Hk) as [m Hm].
  destruct (render_loop_stops env blocks 0 ∅ k m e Hm
              ltac:(intros j Hj; apply Hw; lia) He)
    as (ev & Hl & Hi & Hf & Hc).
  unfold main. cbv zeta. fold blocks.
  cbn [mbind Script_bind emit print fst snd].
  rewrite Hl. cbn [mbind Script_bind emit print fst snd app exit_status].
  split; [done|]. split; [done|].
  unfold invocations, files_written, claims_success.
  cbn [omap list_omap existsb].
  fold (invocations ev). fold (files_written ev). fold (claims_success ev).
  rewrite Hi, Hf, Hc. done.
Qed.

Lemma main_scratch_write_fails_witness :
  1 < length (finditer (whitepaper second_write_fails_env))
  /\ (forall j, j < 1 -> scratch_write second_write_fails_env j = None)
  /\ scratch_write second_write_fails_env 1
     = Some (T "[Errno 13] Permission denied")
  /\ snd (main second_write_fails_env)
     = Raise (T "[Errno 13] Permission denied")
  /\ exit_status (snd (main second_write_fails_env)) = 1%Z
  /\ invocations (fst (main second_write_fails_env))
     = (fun j => mmdc_argv (mmd_path j) (png_path j)) <$> seq 0 1
  /\ files_written (fst (main second_write_fails_env))
     = (PUPPETEER_CFG, puppeteer_json)
         :: imap (fun n b => (mmd_path n, group1 b))
              (take 1 (finditer (whitepaper second_write_fails_env)))
  /\ claims_success (fst (main second_write_fails_env)) = false.
Proof.
  assert (1 < length (finditer (whitepaper second_write_fails_env))) as Hk.
  { change (length (finditer (whitepaper second_write_fails_env))) with 3.
    lia. }
  assert (forall j, j < 1 -> scratch_write second_write_fails_env j = None)
    as Hw.
  { intros j Hj. destruct j as [|j]; [reflexivity | lia]. }
  split; [exact Hk|]. split; [exact Hw|]. split; [reflexivity|].
  apply (main_scratch_write_fails second_write_fails_env 1
           (T "[Errno 13] Permission denied")).
  - exact Hk.
  - exact Hw.
  - reflexivity.
Defined.

(** X10: a converter that cannot be run ends the run.  When the call that
    starts the converter raises (the program is missing, for instance), the
    script ends with that exception and exit status 1 after attempting the
    invocation; no success line is printed. *)
Theorem main_converter_raises (env : Env) (e : text) :
  (forall i, i < length (finditer (whitepaper env)) ->
     scratch_write env i = None) ->
  pandoc env = RunRaises e ->
  snd (main env) = Raise e
  /\ exit_status (snd (main env)) = 1%Z
  /\ Invoke pandoc_argv ∈ fst (main env)
  /\ claims_success (fst (main env)) = false.
Proof.
  intros Hw Hp.
  destruct (render_loop_written env (finditer (whitepaper env)) 0 ∅
              ltac:(intros j Hj; apply Hw; lia))
    as (ev & rendered & Hl & _ & _ & _ & Hc).
  destruct (main_after_loop env ev rendered Hl Hc) as [Hinv Hend].
  rewrite Hp in Hend. destruct Hend as [Hr Hs]. rewrite Hr. done.
Qed.

(** A run over [three_blocks] on a machine without the converter. *)
Definition no_pandoc_env : Env :=
  {| whitepaper := three_blocks;
     cfg_text := puppeteer_json;
     scratch_write := fun _ => None;
     mmdc := fun _ => Completed 0 [] [];
     png_exists := fun _ => true;
     png_size := fun _ => 2048;
     pandoc := RunRaises (T "[Errno 2] No such file or directory: 'pandoc'");
     pdf_getsize := Size 0 |}.

Lemma main_converter_raises_witness :
  (forall i, i < length (finditer (whitepaper no_pandoc_env)) ->
     scratch_write no_pandoc_env i = None)
  /\ pandoc no_pandoc_env
     = RunRaises (T "[Errno 2] No such file or directory: 'pandoc'")
  /\ snd (main no_pandoc_env)
     = Raise (T "[Errno 2] No such file or directory: 'pandoc'")
  /\ exit_status (snd (main no_pandoc_env)) = 1%Z
  /\ Invoke pandoc_argv ∈ fst (main no_pandoc_env)
  /\ claims_success (fst (main no_pandoc_env)) = false.
Proof.
  split; [reflexivity|]. split; [reflexivity|].
  apply (main_converter_raises no_pandoc_env); reflexivity.
Defined.
